(** * sigma-sankey: the flow-graph engine of [src/lib/sankeyDataTransform.ts]

    A shallow embedding of the four functions of the data pipeline
    ([transformSigmaDataToSankey], [aggregateLinks], [calculateNodeDepths],
    [validateSankeyData]) and of the call site in [src/App.tsx], followed by
    the properties the specification states about them.

    Modelling conventions.
    - A JavaScript [number] is [NaN] or an exact rational; signed zeros,
      infinities and rounding are outside the model.  Sums are kept in the
      order in which the code adds, and no theorem rests on a law of addition
      that rounding breaks (associativity, commutativity).
    - A string is a [string] of 8-bit code units; white space beyond them
      (U+1680, U+2000 to U+200A, ...) is not represented.
    - The two coercions of the language runtime that are not repository code,
      [Number(string)] and [String(number)], are left abstract in the class
      [JSRuntime]: every theorem holds for any implementation of them.
    - [Map] and [Set] keep insertion order, which the code observes through
      [forEach], [values()] and [Array.from]; they are association lists and
      lists without duplicates. *)

From Stdlib Require Import List String Ascii ZArith QArith Bool Lia Arith.
From Stdlib Require Import DecimalString Relation_Operators Operators_Properties.
Import ListNotations.
Local Close Scope Q_scope.
Local Open Scope string_scope.
Local Open Scope list_scope.

(* ------------------------------------------------------------------ *)
(** ** JavaScript values *)

Inductive number : Type :=
| NaN
| Num (q : Q).

(** [a + b] *)
Definition js_add (a b : number) : number :=
  match a, b with
  | Num x, Num y => Num (x + y)%Q
  | _, _ => NaN
  end.

(** [a <= 0] *)
Definition js_le0 (a : number) : bool :=
  match a with
  | NaN => false
  | Num x => Qle_bool x 0%Q
  end.

(** [!a] on a number: [0] and [NaN] are falsy. *)
Definition js_falsy (a : number) : bool :=
  match a with
  | NaN => true
  | Num x => Qeq_bool x 0%Q
  end.

(** [a || 0] on a number *)
Definition or_zero (a : number) : number :=
  if js_falsy a then Num 0%Q else a.

Definition of_Z (z : Z) : number := Num (inject_Z z).
Definition of_nat (n : nat) : number := of_Z (Z.of_nat n).

(** The coercions provided by the language runtime. *)
Class JSRuntime : Type := {
  StringToNumber : string -> number;   (* Number(s) for a string s *)
  NumberToString : number -> string    (* String(n) for a number n *)
}.

(** White space removed by [String.prototype.trim], on 8-bit code units:
    TAB, LF, VT, FF, CR, SP and NBSP. *)
Definition isWhiteSpace (c : ascii) : bool :=
  let n := nat_of_ascii c in
  ((9 <=? n)%nat && (n <=? 13)%nat) || (n =? 32)%nat || (n =? 160)%nat.

Fixpoint trimStart (s : list ascii) : list ascii :=
  match s with
  | [] => []
  | c :: s' => if isWhiteSpace c then trimStart s' else s
  end.

Definition trimEnd (s : list ascii) : list ascii :=
  rev (trimStart (rev s)).

(** [s.trim()] *)
Definition trim (s : string) : string :=
  string_of_list_ascii (trimEnd (trimStart (list_ascii_of_string s))).

(** A cell of a Sigma column: [string | number | boolean | null]. *)
Inductive cell : Type :=
| CStr (s : string)
| CNum (n : number)
| CBool (b : bool)
| CNull.

(** Truthiness of a cell, as tested by [cell || ''] . *)
Definition cell_truthy (c : cell) : bool :=
  match c with
  | CStr s => negb (s =? "")
  | CNum n => negb (js_falsy n)
  | CBool b => b
  | CNull => false
  end.

(** [string | number], the type of a link end point. *)
Inductive label : Type :=
| LStr (s : string)
| LNum (n : number).

(* ------------------------------------------------------------------ *)
(** ** [src/types/sigma.ts] *)

(** [SigmaData]: an object indexed by column name. *)
Definition SigmaData : Type := string -> option (list cell).

(** [SankeyNode]: [{ id?, name, value?, depth? }] *)
Record SankeyNode : Type := mkNode {
  node_id : option string;
  node_name : string;
  node_value : option number;
  node_depth : option number
}.

(** [SankeyLink]: [{ source, target, value }].  The interface declares no
    identifier; [link_id] is the [id] property that [SankeyChart] and the
    click handler of [App] read from a link object ([link.id],
    [params.data.id]), absent when the object has no such property. *)
Record SankeyLink : Type := mkLink {
  link_source : label;
  link_target : label;
  link_value : number;
  link_id : option string
}.

(** [SankeyChartData]: [{ nodes, links }] *)
Record SankeyChartData : Type := mkChart {
  nodes : list SankeyNode;
  links : list SankeyLink
}.

(** The column selectors of [SigmaConfig], as [App] reads them. *)
Record SigmaConfig : Type := mkConfig {
  sourceColumn : option string;
  targetColumn : option string;
  valueColumn : option string;
  idColumn : option string
}.

(* ------------------------------------------------------------------ *)
(** ** [Set<string>] and [Map<string, V>] in insertion order *)

Module JsSet.
Definition t : Type := list string.

Definition empty : t := [].

Fixpoint has (s : t) (k : string) : bool :=
  match s with
  | [] => false
  | k' :: s' => (k' =? k) || has s' k
  end.

Definition add (s : t) (k : string) : t :=
  if has s k then s else s ++ [k].

(** [new Set(xs)] *)
Definition of_list (xs : list string) : t := fold_left add xs empty.
End JsSet.

Module JsMap.
Definition t (V : Type) : Type := list (string * V).

Definition empty {V : Type} : t V := [].

Fixpoint get {V : Type} (m : t V) (k : string) : option V :=
  match m with
  | [] => None
  | (k', v) :: m' => if k' =? k then Some v else get m' k
  end.

Definition has {V : Type} (m : t V) (k : string) : bool :=
  match get m k with Some _ => true | None => false end.

(** [m.set(k, v)]: replaces the value in place, or appends a new entry. *)
Fixpoint set {V : Type} (m : t V) (k : string) (v : V) : t V :=
  match m with
  | [] => [(k, v)]
  | (k', v') :: m' =>
      if k' =? k then (k', v) :: m' else (k', v') :: set m' k v
  end.

Definition keys {V : Type} (m : t V) : list string := map fst m.
Definition values {V : Type} (m : t V) : list V := map snd m.

(** [new Map(entries)] *)
Definition of_list {V : Type} (entries : list (string * V)) : t V :=
  fold_left (fun m kv => set m (fst kv) (snd kv)) entries empty.
End JsMap.

(* ------------------------------------------------------------------ *)
(** ** An executable runtime for the examples

    Exact on integer-valued numbers and on strings that are empty or a
    decimal integer literal; only used to evaluate the functions on
    concrete inputs. *)

Definition decimal_of_number (n : number) : string :=
  match n with
  | NaN => "NaN"
  | Num q => NilZero.string_of_int (Z.to_int (Qnum q / Zpos (Qden q)))
  end.

Definition number_of_decimal (s : string) : number :=
  let s' := trim s in
  if s' =? "" then Num 0%Q
  else match NilZero.int_of_string s' with
       | Some i => of_Z (Z.of_int i)
       | None => NaN
       end.

Definition decimal_runtime : JSRuntime :=
  {| StringToNumber := number_of_decimal; NumberToString := decimal_of_number |}.

(* ------------------------------------------------------------------ *)
(** ** [src/lib/sankeyDataTransform.ts] *)

Section Engine.
Context {rt : JSRuntime}.

(** [String(c)] for a cell *)
Definition String_cell (c : cell) : string :=
  match c with
  | CStr s => s
  | CNum n => NumberToString n
  | CBool true => "true"
  | CBool false => "false"
  | CNull => "null"
  end.

(** [Number(c)] for a cell *)
Definition Number_cell (c : cell) : number :=
  match c with
  | CStr s => StringToNumber s
  | CNum n => n
  | CBool true => Num 1%Q
  | CBool false => Num 0%Q
  | CNull => Num 0%Q
  end.

(** [String(x)] for a link end point *)
Definition String_label (x : label) : string :=
  match x with
  | LStr s => s
  | LNum n => NumberToString n
  end.

(** [!s] for a column selector: missing or empty. *)
Definition selector_missing (s : option string) : bool :=
  match s with
  | None => true
  | Some s => s =? ""
  end.

(** [sigmaData[column] || []] *)
Definition column (sigmaData : SigmaData) (col : string) : list cell :=
  match sigmaData col with
  | Some xs => xs
  | None => []
  end.

(** [String(col[i] || '').trim()] *)
Definition label_at (col : list cell) (i : nat) : string :=
  let c := nth i col CNull in
  trim (if cell_truthy c then String_cell c else "").

(** [Number(col[i]) || 0] *)
Definition value_at (col : list cell) (i : nat) : number :=
  or_zero (Number_cell (nth i col CNull)).

(** [!source || !target || value <= 0] *)
Definition row_invalid (src tgt : string) (v : number) : bool :=
  (src =? "") || (tgt =? "") || js_le0 v.

(** One iteration of the row loop, on [(nodeNames, links)]. *)
Definition ingest_row (sourceData targetData valueData : list cell)
    (acc : JsSet.t * list SankeyLink) (i : nat) : JsSet.t * list SankeyLink :=
  let src := label_at sourceData i in
  let tgt := label_at targetData i in
  let v := value_at valueData i in
  if row_invalid src tgt v then acc
  else
    (JsSet.add (JsSet.add (fst acc) src) tgt,
     snd acc ++ [mkLink (LStr src) (LStr tgt) v None]).

Definition empty_graph : SankeyChartData := mkChart [] [].

Definition transformSigmaDataToSankey (sigmaData : option SigmaData)
    (sourceColumn targetColumn valueColumn : option string) : SankeyChartData :=
  match sigmaData, sourceColumn, targetColumn, valueColumn with
  | Some data, Some sc, Some tc, Some vc =>
      if (sc =? "") || (tc =? "") || (vc =? "") then empty_graph
      else
        let sourceData := column data sc in
        let targetData := column data tc in
        let valueData := column data vc in
        if negb (List.length sourceData =? List.length targetData)%nat
           || negb (List.length sourceData =? List.length valueData)%nat
        then empty_graph
        else
          let '(nodeNames, links) :=
            fold_left (ingest_row sourceData targetData valueData)
                      (seq 0 (List.length sourceData)) (JsSet.empty, []) in
          mkChart (map (fun nodeName => mkNode None nodeName None None) nodeNames)
                  links
  | _, _, _, _ => empty_graph
  end.

(** [`${link.source}->${link.target}`] *)
Definition link_key (link : SankeyLink) : string :=
  String_label (link_source link) ++ "->" ++ String_label (link_target link).

(** [linkMap.get(key)!.value += link.value] *)
Definition add_value (acc : SankeyLink) (v : number) : SankeyLink :=
  mkLink (link_source acc) (link_target acc) (js_add (link_value acc) v)
         (link_id acc).

Definition aggregate_step (linkMap : JsMap.t SankeyLink) (link : SankeyLink)
    : JsMap.t SankeyLink :=
  let key := link_key link in
  match JsMap.get linkMap key with
  | Some acc => JsMap.set linkMap key (add_value acc (link_value link))
  | None => JsMap.set linkMap key link
  end.

Definition aggregateLinks (links : list SankeyLink) : list SankeyLink :=
  JsMap.values (fold_left aggregate_step links JsMap.empty).

(** *** [calculateNodeDepths] *)

(** [String(link.source)] and [String(link.target)] *)
Definition sourceName (link : SankeyLink) : string :=
  String_label (link_source link).
Definition targetName (link : SankeyLink) : string :=
  String_label (link_target link).

(** The mutable state of the traversal. *)
Record layering : Type := mkLayering {
  nodeMap : JsMap.t SankeyNode;
  visited : JsSet.t;
  inDegree : JsMap.t Z;
  queue : list string
}.

(** [{ ...node, depth: d }] and [node.depth = d] *)
Definition set_depth (node : SankeyNode) (d : Z) : SankeyNode :=
  mkNode (node_id node) (node_name node) (node_value node) (Some (of_Z d)).

(** [inDegree.get(name) || 0] *)
Definition get0 (m : JsMap.t Z) (name : string) : Z :=
  match JsMap.get m name with
  | Some d => d
  | None => 0%Z
  end.

(** [new Map(nodes.map(node => [node.name, { ...node, depth: 0 }]))] *)
Definition init_nodeMap (nodes : list SankeyNode) : JsMap.t SankeyNode :=
  JsMap.of_list (map (fun node => (node_name node, set_depth node 0)) nodes).

(** [nodes.forEach(node => inDegree.set(node.name, 0))] *)
Definition init_inDegree (nodes : list SankeyNode) : JsMap.t Z :=
  fold_left (fun m node => JsMap.set m (node_name node) 0%Z) nodes JsMap.empty.

(** [links.forEach(link => inDegree.set(t, (inDegree.get(t) || 0) + 1))] *)
Definition count_inDegree (links : list SankeyLink) (m : JsMap.t Z) : JsMap.t Z :=
  fold_left
    (fun m link =>
       JsMap.set m (targetName link) (get0 m (targetName link) + 1)%Z)
    links m.

(** [inDegree.forEach((degree, nodeName) => { if (degree === 0) queue.push(nodeName) })] *)
Definition start_queue (m : JsMap.t Z) : list string :=
  fold_left
    (fun q kv => if (snd kv =? 0)%Z then q ++ [fst kv] else q)
    m [].

Definition init_layering (nodes : list SankeyNode) (links : list SankeyLink)
    : layering :=
  let m := count_inDegree links (init_inDegree nodes) in
  mkLayering (init_nodeMap nodes) JsSet.empty m (start_queue m).

(** The body of the inner [links.forEach], for the node [nodeName] being
    processed; [vis] is [visited] after [visited.add(nodeName)]. *)
Definition relax (nodeName : string) (vis : JsSet.t)
    (acc : JsMap.t Z * list string) (link : SankeyLink)
    : JsMap.t Z * list string :=
  if sourceName link =? nodeName then
    let newInDegree := (get0 (fst acc) (targetName link) - 1)%Z in
    let inDegree' := JsMap.set (fst acc) (targetName link) newInDegree in
    if (newInDegree =? 0)%Z && negb (JsSet.has vis (targetName link))
    then (inDegree', snd acc ++ [targetName link])
    else (inDegree', snd acc)
  else acc.

(** The body of the [for] loop once [nodeName] has been shifted off the queue;
    [st] holds the rest of the queue. *)
Definition process_node (links : list SankeyLink) (currentDepth : Z)
    (st : layering) (nodeName : string) : layering :=
  match JsMap.get (nodeMap st) nodeName with
  | Some node =>
      if JsSet.has (visited st) nodeName then st
      else
        let nodeMap' := JsMap.set (nodeMap st) nodeName (set_depth node currentDepth) in
        let visited' := JsSet.add (visited st) nodeName in
        let '(inDegree', queue') :=
          fold_left (relax nodeName visited') links (inDegree st, queue st) in
        mkLayering nodeMap' visited' inDegree' queue'
  | None => st
  end.

(** [for (let i = 0; i < levelSize; i++) { const nodeName = queue.shift()!; ... }] *)
Fixpoint process_level (links : list SankeyLink) (currentDepth : Z)
    (levelSize : nat) (st : layering) : layering :=
  match levelSize with
  | O => st
  | S k =>
      match queue st with
      | [] => st
      | nodeName :: rest =>
          process_level links currentDepth k
            (process_node links currentDepth
               (mkLayering (nodeMap st) (visited st) (inDegree st) rest)
               nodeName)
      end
  end.

(** [while (queue.length > 0) { ...; currentDepth++ }], with a bound on the
    number of iterations; [None] when the bound is reached first. *)
Fixpoint bfs (links : list SankeyLink) (fuel : nat) (currentDepth : Z)
    (st : layering) : option layering :=
  match queue st with
  | [] => Some st
  | _ :: _ =>
      match fuel with
      | O => None
      | S fuel' =>
          bfs links fuel' (currentDepth + 1)%Z
            (process_level links currentDepth (List.length (queue st)) st)
      end
  end.

(** Every iteration of the [while] loop that runs shifts at least one name
    off the queue; the queue starts with at most one name per entry of
    [inDegree] and receives at most one name per link afterwards, so this
    many iterations are enough (see [calculateNodeDepths_total]). *)
Definition bfs_fuel (nodes : list SankeyNode) (links : list SankeyLink) : nat :=
  List.length nodes + 2 * List.length links.

Definition calculateNodeDepths (nodes : list SankeyNode)
    (links : list SankeyLink) : option (list SankeyNode) :=
  match bfs links (bfs_fuel nodes links) 0%Z (init_layering nodes links) with
  | Some st => Some (JsMap.values (nodeMap st))
  | None => None
  end.

(** *** [validateSankeyData] *)

Record ValidationReport : Type := mkReport {
  isValid : bool;
  errors : list string;
  warnings : list string
}.

(** [a === b] on link end points *)
Definition label_strict_eq (a b : label) : bool :=
  match a, b with
  | LStr x, LStr y => x =? y
  | LNum (Num x), LNum (Num y) => Qeq_bool x y
  | _, _ => false
  end.

(** [`${xs.length}`] *)
Definition count_text {A : Type} (xs : list A) : string :=
  NumberToString (of_nat (List.length xs)).

Definition msg_missing : string := "Missing nodes or links data".
Definition msg_no_nodes : string := "No nodes found in data".
Definition msg_no_links : string := "No links found in data".
Definition msg_orphaned {A : Type} (xs : list A) : string :=
  "Found " ++ count_text xs ++ " orphaned nodes (nodes not connected to any links)".
Definition msg_invalid {A : Type} (xs : list A) : string :=
  "Found " ++ count_text xs ++ " links referencing non-existent nodes".
Definition msg_self {A : Type} (xs : list A) : string :=
  "Found " ++ count_text xs ++ " self-referencing links".
Definition msg_negative {A : Type} (xs : list A) : string :=
  "Found " ++ count_text xs ++ " links with zero or negative values".

(** [if (cond) list.push(msg)] *)
Definition push_if (cond : bool) (msg : string) (l : list string) : list string :=
  if cond then l ++ [msg] else l.

Definition nonempty {A : Type} (xs : list A) : bool :=
  negb (List.length xs =? 0)%nat.

(** [nodeNames]: [new Set(data.nodes.map(node => node.name))] *)
Definition validate_nodeNames (ns : list SankeyNode) : JsSet.t :=
  JsSet.of_list (map node_name ns).

(** [linkNodes]: every source and target, as strings *)
Definition validate_linkNodes (ls : list SankeyLink) : JsSet.t :=
  fold_left
    (fun s link =>
       JsSet.add (JsSet.add s (String_label (link_source link)))
                 (String_label (link_target link)))
    ls JsSet.empty.

Definition orphanedNodes (ns : list SankeyNode) (ls : list SankeyLink)
    : list SankeyNode :=
  filter (fun node => negb (JsSet.has (validate_linkNodes ls) (node_name node))) ns.

Definition invalidLinks (ns : list SankeyNode) (ls : list SankeyLink)
    : list SankeyLink :=
  filter
    (fun link =>
       negb (JsSet.has (validate_nodeNames ns) (String_label (link_source link)))
       || negb (JsSet.has (validate_nodeNames ns) (String_label (link_target link))))
    ls.

Definition selfLinks (ls : list SankeyLink) : list SankeyLink :=
  filter (fun link => label_strict_eq (link_source link) (link_target link)) ls.

Definition negativeValueLinks (ls : list SankeyLink) : list SankeyLink :=
  filter (fun link => js_le0 (link_value link)) ls.

(** [data.nodes] and [data.links] are [None] when the property is missing. *)
Definition validateSankeyData (data_nodes : option (list SankeyNode))
    (data_links : option (list SankeyLink)) : ValidationReport :=
  match data_nodes, data_links with
  | Some ns, Some ls =>
      let errors0 := push_if (List.length ns =? 0)%nat msg_no_nodes [] in
      let errors1 := push_if (List.length ls =? 0)%nat msg_no_links errors0 in
      let warnings1 :=
        push_if (nonempty (orphanedNodes ns ls))
                (msg_orphaned (orphanedNodes ns ls)) [] in
      let errors2 :=
        push_if (nonempty (invalidLinks ns ls))
                (msg_invalid (invalidLinks ns ls)) errors1 in
      let warnings2 :=
        push_if (nonempty (selfLinks ls)) (msg_self (selfLinks ls)) warnings1 in
      let errors3 :=
        push_if (nonempty (negativeValueLinks ls))
                (msg_negative (negativeValueLinks ls)) errors2 in
      mkReport (List.length errors3 =? 0)%nat errors3 warnings2
  | _, _ => mkReport false [msg_missing] []
  end.

(** *** [src/App.tsx]: the [sankeyData] memo

    [transformSigmaDataToSankey] is called with [config.idColumn] as a fifth
    argument; the function declares four parameters, so the argument is
    dropped by the call.  Nothing in the [try] block throws. *)
Definition App_sankeyData (sigmaData : option SigmaData) (config : SigmaConfig)
    : SankeyChartData :=
  match sigmaData with
  | None => empty_graph
  | Some _ =>
      if selector_missing (sourceColumn config)
         || selector_missing (targetColumn config)
         || selector_missing (valueColumn config)
      then empty_graph
      else
        let rawData :=
          transformSigmaDataToSankey sigmaData (sourceColumn config)
            (targetColumn config) (valueColumn config) in
        let aggregatedLinks := aggregateLinks (links rawData) in
        mkChart (nodes rawData) aggregatedLinks
  end.

End Engine.

(* ------------------------------------------------------------------ *)
(** ** Vocabulary of the specification *)

Section Vocabulary.
Context {rt : JSRuntime}.

(** *** Row ingestion *)

(** Row [i] is dropped by ingestion. *)
Definition row_dropped (sourceData targetData valueData : list cell) (i : nat)
    : bool :=
  row_invalid (label_at sourceData i) (label_at targetData i)
              (value_at valueData i).

(** The provisional edge of row [i], if the row survives. *)
Definition row_links (sourceData targetData valueData : list cell) (i : nat)
    : list SankeyLink :=
  if row_dropped sourceData targetData valueData i then []
  else [mkLink (LStr (label_at sourceData i)) (LStr (label_at targetData i))
               (value_at valueData i) None].

(** The labels row [i] registers, source before target. *)
Definition row_names (sourceData targetData valueData : list cell) (i : nat)
    : list string :=
  if row_dropped sourceData targetData valueData i then []
  else [label_at sourceData i; label_at targetData i].

(** *** Row ingestion, stated on the cells *)










(** A non-empty string that [trim] leaves unchanged. *)
Definition trimmed_nonempty (s : string) : Prop :=
  s <> "" /\ trim s = s.

(** A link with trimmed, non-empty string labels and a value above zero. *)
Definition well_formed_link (link : SankeyLink) : Prop :=
  exists s t q,
    link_source link = LStr s /\ link_target link = LStr t /\
    link_value link = Num q /\
    trimmed_nonempty s /\ trimmed_nonempty t /\ (0 < q)%Q.

(** *** Edge aggregation *)

(** The ordered pair of end points of a link, as the strings the code
    compares; for string labels these are the labels themselves. *)
Definition pair_of (link : SankeyLink) : string * string :=
  (String_label (link_source link), String_label (link_target link)).

Definition pair_eqb (p q : string * string) : bool :=
  (fst p =? fst q) && (snd p =? snd q).

(** The sum of a non-empty list of values, added in list order. *)
Definition sum_values (vs : list number) : number :=
  match vs with
  | [] => Num 0%Q
  | v :: rest => fold_left js_add rest v
  end.

(** The aggregation contract: one output edge per distinct ordered pair of the
    input, whose value is the sum of the values of exactly the input edges
    with that pair. *)
Definition aggregates_by_pair (input output : list SankeyLink) : Prop :=
  NoDup (map pair_of output) /\
  (forall p, In p (map pair_of output) <-> In p (map pair_of input)) /\
  (forall o, In o output ->
     link_value o =
     sum_values
       (map link_value
          (filter (fun link => pair_eqb (pair_of link) (pair_of o)) input))).

(** [s.includes("->")] *)
Fixpoint includes_arrow (s : string) : bool :=
  match s with
  | EmptyString => false
  | String c s' =>
      match s' with
      | String c' _ => (c =? "-")%char && (c' =? ">")%char
      | EmptyString => false
      end || includes_arrow s'
  end.

(** The entry the map holds for key [k] once the links [done] have been
    processed: the first link with that key, with the values of the later
    ones added in order. *)
Definition merged (k : string) (done : list SankeyLink) : option SankeyLink :=
  match filter (fun link => link_key link =? k) done with
  | [] => None
  | first :: rest =>
      Some (mkLink (link_source first) (link_target first)
                   (fold_left js_add (map link_value rest) (link_value first))
                   (link_id first))
  end.

(** Keys are distinct, and each entry sits under the key of its own link. *)
Definition keyed (m : JsMap.t SankeyLink) : Prop :=
  NoDup (JsMap.keys m) /\ Forall (fun kv => link_key (snd kv) = fst kv) m.

(** *** Node layering: the statements *)

(** The fields of a node other than its depth. *)
Definition node_frame (node : SankeyNode) : option string * string * option number :=
  (node_id node, node_name node, node_value node).

(** A depth that is a non-negative integer. *)
Definition has_depth (node : SankeyNode) : Prop :=
  exists d : Z, node_depth node = Some (of_Z d) /\ (0 <= d)%Z.

(** The depths of [result] respect the link [l]. *)
Definition respects (result : list SankeyNode) (l : SankeyLink) : Prop :=
  forall ns nt,
    In ns result -> In nt result ->
    node_name ns = sourceName l -> node_name nt = targetName l ->
    exists ds dt,
      node_depth ns = Some (of_Z ds) /\ node_depth nt = Some (of_Z dt) /\
      (ds + 1 <= dt)%Z.

(** Some link goes from [a] to [b]. *)
Definition edge (links : list SankeyLink) (a b : string) : Prop :=
  exists l, In l links /\ sourceName l = a /\ targetName l = b.

(** [a] reaches [t] along one or more links. *)
Definition ancestor (links : list SankeyLink) (a t : string) : Prop :=
  clos_trans string (edge links) a t.

(** [t] names a node of the collection, and so does every label that reaches
    [t]; no label that reaches [t] lies on a cycle. *)
Definition acyclic_ancestry (nodes : list SankeyNode)
    (links : list SankeyLink) (t : string) : Prop :=
  In t (map node_name nodes) /\
  forall a, ancestor links a t ->
            In a (map node_name nodes) /\ ~ ancestor links a a.

(** [name] is the name of a node of the collection. *)
Definition in_collection (nodes : list SankeyNode) (name : string) : bool :=
  existsb (fun node => node_name node =? name) nodes.

(** The links left when every link with an end point outside the node
    collection has been removed. *)
Definition without_dangling (nodes : list SankeyNode)
    (links : list SankeyLink) : list SankeyLink :=
  filter (fun l => in_collection nodes (sourceName l)
                   && in_collection nodes (targetName l)) links.

(** The links left when every link whose target is outside the node
    collection has been removed. *)
Definition without_unknown_targets (nodes : list SankeyNode)
    (links : list SankeyLink) : list SankeyLink :=
  filter (fun l => in_collection nodes (targetName l)) links.

(** *** Node layering: the claim of the specification on the order of
    depths, as it is written *)

(** Consecutive labels of [p] are joined by links. *)
Fixpoint chain (links : list SankeyLink) (p : list string) : Prop :=
  match p with
  | a :: ((b :: _) as p') => edge links a b /\ chain links p'
  | _ => True
  end.

(** A node of the collection that no link enters. *)
Definition zero_in_degree (nodes : list SankeyNode) (links : list SankeyLink)
    (z : string) : Prop :=
  In z (map node_name nodes) /\ forall l, In l links -> targetName l <> z.

(** [t] is reached from a zero-in-degree node along links, through labels
    that are all different (the walk goes round no cycle). *)
Definition reachable_without_cycle (nodes : list SankeyNode)
    (links : list SankeyLink) (t : string) : Prop :=
  exists z p,
    zero_in_degree nodes links z /\ hd_error p = Some z /\ last p z = t /\
    chain links p /\ NoDup p.

Definition layering_claim (nodes : list SankeyNode) (links : list SankeyLink)
    : Prop :=
  forall l result,
    In l links -> reachable_without_cycle nodes links (targetName l) ->
    calculateNodeDepths nodes links = Some result ->
    respects result l.

(** *** Node layering: the invariants of the traversal *)

(** Links whose source has not been processed yet. *)
Definition pending (links : list SankeyLink) (vis : JsSet.t) : nat :=
  List.length (filter (fun l => negb (JsSet.has vis (sourceName l))) links).

(** Links of [ls] that leave [name]. *)
Definition outgoing (name : string) (ls : list SankeyLink) : nat :=
  List.length (filter (fun l => sourceName l =? name) ls).

(** The quantity that every shift off the queue decreases. *)
Definition potential (links : list SankeyLink) (st : layering) : nat :=
  List.length (queue st) + pending links (visited st).

(** Links into [name] whose source is not in [vis]. *)
Definition unvisited_in (links : list SankeyLink) (vis : JsSet.t)
    (name : string) : nat :=
  List.length
    (filter (fun l => (targetName l =? name) && negb (JsSet.has vis (sourceName l)))
            links).

(** Links from [from] to [to]. *)
Definition flows (from to : string) (ls : list SankeyLink) : nat :=
  List.length
    (filter (fun l => (sourceName l =? from) && (targetName l =? to)) ls).

(** The node map holds the integer depth [d] for [name]. *)
Definition depth_is (m : JsMap.t SankeyNode) (name : string) (d : Z) : Prop :=
  exists node, JsMap.get m name = Some node /\ node_depth node = Some (of_Z d).

(** A label is grounded when it names a node of the collection and every link
    into it comes from a grounded label: walking the links backwards from it
    never leaves the collection and never meets a cycle. *)
Inductive grounded (nodes : list SankeyNode) (links : list SankeyLink)
    : string -> Prop :=
| grounded_intro (name : string) :
    In name (map node_name nodes) ->
    (forall l, In l links -> targetName l = name ->
               grounded nodes links (sourceName l)) ->
    grounded nodes links name.

(** The invariant of the traversal while the wave of depth [d] is processed:
    [cur] is the part of the queue that belongs to this wave and [nxt] the
    part pushed for the next one. *)
Record layered (links : list SankeyLink) (d : Z) (cur nxt : list string)
    (st : layering) : Prop := mkLayered {
  lay_queue : queue st = cur ++ nxt;
  lay_degree :
    forall t, get0 (inDegree st) t
              = Z.of_nat (unvisited_in links (visited st) t);
  lay_visited :
    forall v, In v (visited st) ->
      exists dv, depth_is (nodeMap st) v dv /\ (dv <= d)%Z;
  lay_edge :
    forall l, In l links -> In (targetName l) (visited st) ->
      exists ds dt,
        In (sourceName l) (visited st) /\
        depth_is (nodeMap st) (sourceName l) ds /\
        depth_is (nodeMap st) (targetName l) dt /\ (ds + 1 <= dt)%Z;
  lay_cur :
    forall q l, In q cur -> In l links -> targetName l = q ->
      exists ds, In (sourceName l) (visited st) /\
                 depth_is (nodeMap st) (sourceName l) ds /\ (ds + 1 <= d)%Z;
  lay_nxt :
    forall q l, In q nxt -> In l links -> targetName l = q ->
      exists ds, In (sourceName l) (visited st) /\
                 depth_is (nodeMap st) (sourceName l) ds /\ (ds <= d)%Z;
  lay_ready :
    forall t, JsMap.get (nodeMap st) t <> None -> ~ In t (visited st) ->
      unvisited_in links (visited st) t = 0%nat -> In t (cur ++ nxt)
}.

(** The node map keeps its keys, and each node sits under its own name. *)
Definition named (nodes : list SankeyNode) (m : JsMap.t SankeyNode) : Prop :=
  JsMap.keys m = JsMap.keys (init_nodeMap nodes) /\ NoDup (JsMap.keys m) /\
  Forall (fun kv => node_name (snd kv) = fst kv) m.

(** An entry of [inDegree] whose key names a node of the collection. *)
Definition known_entry (nodes : list SankeyNode) (kv : string * Z) : bool :=
  in_collection nodes (fst kv).

(** Counters and queues that agree on the labels of the collection. *)
Definition same_counters (nodes : list SankeyNode)
    (acc acc' : JsMap.t Z * list string) : Prop :=
  (forall t, in_collection nodes t = true ->
             get0 (fst acc) t = get0 (fst acc') t) /\
  filter (in_collection nodes) (snd acc) = snd acc'.

(** Two states of the traversal that differ only in labels outside the node
    collection: in the counters of such labels and in their presence in the
    queue. *)
Record same_on_collection (nodes : list SankeyNode) (st st' : layering)
    : Prop := mkSame {
  same_nodeMap : nodeMap st = nodeMap st';
  same_visited : visited st = visited st';
  same_degree :
    forall t, in_collection nodes t = true ->
              get0 (inDegree st) t = get0 (inDegree st') t;
  same_queue : filter (in_collection nodes) (queue st) = queue st';
  same_unknown :
    forall t, in_collection nodes t = false -> JsMap.get (nodeMap st) t = None
}.

End Vocabulary.

(** [{ name }] and a link between string labels, for the examples. *)
Definition node_named (name : string) : SankeyNode :=
  mkNode None name None None.

Definition example_link (s t : string) (v : Z) : SankeyLink :=
  mkLink (LStr s) (LStr t) (of_Z v) None.

(** One row [("A", "B", 10)] with the identifier ["r1"]. *)
Definition example_table : SigmaData :=
  fun col =>
    if col =? "src" then Some [CStr "A"]
    else if col =? "tgt" then Some [CStr "B"]
    else if col =? "val" then Some [CNum (of_Z 10)]
    else if col =? "id" then Some [CStr "r1"]
    else None.

Definition example_config : SigmaConfig :=
  mkConfig (Some "src") (Some "tgt") (Some "val") (Some "id").

(** Two links with different end points and the same key ["a->b->c"]. *)
Definition colliding_links : list SankeyLink :=
  [example_link "a->b" "c" 1; example_link "a" "b->c" 2].

(** Scenario A of the specification, before aggregation. *)
Definition scenario_A_links : list SankeyLink :=
  [example_link "A" "B" 10; example_link "A" "B" 5; example_link "B" "C" 3].

(** A link from a label outside the collection into the node [A]. *)
Definition dangling_nodes : list SankeyNode := [node_named "S"; node_named "A"].
Definition dangling_links : list SankeyLink :=
  [example_link "S" "A" 1; example_link "X" "A" 1].

(** A node entered from a zero-in-degree node and from a cycle it is on. *)
Definition cycle_nodes : list SankeyNode :=
  [node_named "S"; node_named "A"; node_named "B"].
Definition cycle_links : list SankeyLink :=
  [example_link "S" "A" 1; example_link "A" "B" 1; example_link "B" "A" 1].

(** A link from a label outside the collection, in front of a chain. *)
Definition blocked_nodes : list SankeyNode := [node_named "B"; node_named "C"].
Definition blocked_links : list SankeyLink :=
  [example_link "X" "B" 1; example_link "B" "C" 1].

(** Scenario A of the specification, aggregated. *)
Definition scenario_A_nodes : list SankeyNode :=
  [node_named "A"; node_named "B"; node_named "C"].
Definition scenario_A_aggregated : list SankeyLink :=
  [example_link "A" "B" 15; example_link "B" "C" 3].

(** Scenario B of the specification: the only row has the value [-5]. *)
Definition scenario_B_table : SigmaData :=
  fun col =>
    if col =? "src" then Some [CStr "A"]
    else if col =? "tgt" then Some [CStr "B"]
    else if col =? "val" then Some [CNum (of_Z (-5))]
    else None.

(** Scenario C of the specification: a cycle of two nodes. *)
Definition scenario_C_nodes : list SankeyNode :=
  [node_named "A"; node_named "B"].
Definition scenario_C_links : list SankeyLink :=
  [example_link "A" "B" 1; example_link "B" "A" 1].

(** Columns of different lengths. *)
Definition ragged_table : SigmaData :=
  fun col =>
    if col =? "src" then Some [CStr "A"; CStr "B"]
    else if col =? "tgt" then Some [CStr "B"]
    else if col =? "val" then Some [CNum (of_Z 10)]
    else None.



(* ------------------------------------------------------------------ *)
(** ** [src/App.tsx]: the [dataValidation] memo *)

Section AppValidation.
Context {rt : JSRuntime}.

(** [sankeyData] is the value of the [sankeyData] memo. *)
Definition App_dataValidation (sigmaData : option SigmaData)
    (config : SigmaConfig) (sankeyData : SankeyChartData) : ValidationReport :=
  if selector_missing (sourceColumn config)
     || selector_missing (targetColumn config)
     || selector_missing (valueColumn config)
  then mkReport true [] []
  else
    let run := validateSankeyData (Some (nodes sankeyData))
                                  (Some (links sankeyData)) in
    match sigmaData, sourceColumn config with
    | Some data, Some sc =>
        if (List.length (nodes sankeyData) =? 0)%nat
           && (List.length (links sankeyData) =? 0)%nat
        then
          if (0 <? List.length (column data sc))%nat then run
          else mkReport true [] []
        else run
    | _, _ => run
    end.

End AppValidation.

(* ------------------------------------------------------------------ *)
(** ** [src/lib/sankeyDefaults.ts]: tooltip templates *)

(** [s.startsWith(p)] *)
Fixpoint startsWith (s p : string) {struct p} : bool :=
  match p, s with
  | EmptyString, _ => true
  | String a p', String b s' => (a =? b)%char && startsWith s' p'
  | String _ _, EmptyString => false
  end.

(** [s.includes(sub)] *)
Fixpoint includes (s sub : string) : bool :=
  startsWith s sub ||
  match s with
  | EmptyString => false
  | String _ s' => includes s' sub
  end.

(** [xs.includes(x)] on an array of strings *)
Definition list_includes (xs : list string) (x : string) : bool :=
  existsb (fun y => y =? x) xs.

(** [s.replace(/pat/g, rep)] for a non-empty literal [pat] and a replacement
    without [$]: the matches are found from left to right and do not overlap.
    [skip] counts the characters of the current match still to be passed. *)
Fixpoint replace_from (pat rep : string) (skip : nat) (s : string) : string :=
  match s with
  | EmptyString => EmptyString
  | String c s' =>
      match skip with
      | S k => replace_from pat rep k s'
      | O =>
          if startsWith s pat
          then (rep ++ replace_from pat rep (String.length pat - 1) s')%string
          else String c (replace_from pat rep 0 s')
      end
  end.

Definition replaceAll (pat rep s : string) : string := replace_from pat rep 0 s.

Definition migrateTooltipTemplate (template : string) : string :=
  replaceAll "{data.id}" "{id}"
    (replaceAll "{data.value}" "{value}"
       (replaceAll "{data.target}" "{target}"
          (replaceAll "{data.source}" "{source}" template))).

(** The result of [validateTooltipTemplate]. *)
Record TemplateValidation : Type := mkTemplateValidation {
  template_isValid : bool;
  template_warnings : list string;
  template_supportedVariables : list string
}.

(** The local [supportedVariables] of [validateTooltipTemplate]. *)
Definition supportedVariables : list string :=
  ["{source}"; "{target}"; "{value}"; "{id}"; "{name}";
   "{data.source}"; "{data.target}"; "{data.value}"; "{data.id}"].

(** The characters in front of the first ["}"], if there is one. *)
Fixpoint until_close (s : string) : option string :=
  match s with
  | EmptyString => None
  | String c s' =>
      if (c =? "}")%char then Some EmptyString
      else option_map (String c) (until_close s')
  end.

(** The [exec] loop over [/\{([^}]+)\}/g]: the first groups of the matches,
    from left to right.  A match starts at a ["{"] that is followed by at
    least one character other than ["}"] and then by ["}"]; the search goes on
    behind the match.  [skip] counts the characters of the current match
    still to be passed. *)
Fixpoint variables_from (skip : nat) (s : string) : list string :=
  match s with
  | EmptyString => []
  | String c s' =>
      match skip with
      | S k => variables_from k s'
      | O =>
          if (c =? "{")%char then
            match until_close s' with
            | Some (String a name) =>
                String a name
                :: variables_from (S (String.length (String a name))) s'
            | _ => variables_from 0 s'
            end
          else variables_from 0 s'
      end
  end.

Definition foundVariables (template : string) : list string :=
  variables_from 0 template.

Definition msg_unknown_variable (variable : string) : string :=
  "Unknown variable: " ++ variable.

Definition msg_deprecated : string :=
  "Using {data.variable} syntax is deprecated. Use {variable} instead (e.g., {source} instead of {data.source})".

(** The body of the loop over the matches; [varName] is [match[1]] and
    [match[0]] is [varName] between braces. *)
Definition check_variable (warnings : list string) (varName : string)
    : list string :=
  let variable := ("{" ++ varName ++ "}")%string in
  if negb (list_includes supportedVariables variable) then
    let withDataPrefix := ("{data." ++ varName ++ "}")%string in
    if negb (list_includes supportedVariables withDataPrefix)
    then warnings ++ [msg_unknown_variable variable]
    else warnings
  else warnings.

Definition validateTooltipTemplate (template : string) : TemplateValidation :=
  let warnings1 := fold_left check_variable (foundVariables template) [] in
  let warnings2 :=
    if includes template "{data." then warnings1 ++ [msg_deprecated]
    else warnings1 in
  mkTemplateValidation
    ((List.length (filter (fun w => includes w "Unknown variable") warnings2)
      =? 0)%nat)
    warnings2
    ["{source}"; "{target}"; "{value}"; "{id}"; "{name}"].

(* ------------------------------------------------------------------ *)
(** ** [src/components/SankeyChart.tsx]: node colours *)

Section NodeColours.
Context {rt : JSRuntime}.

(** The palette [colors] of [generateNodeColor]. *)
Definition colors : list string :=
  ["#5470c6"; "#91cc75"; "#fac858"; "#ee6666"; "#73c0de";
   "#3ba272"; "#fc8452"; "#9a60b4"; "#ea7ccc"; "#8d6e5f";
   "#dd6b66"; "#759aa0"; "#e69d87"; "#8dc1a9"; "#ea7e53"].

(** [a % b] on rationals, for [b] other than 0: the quotient is truncated
    towards 0. *)
Definition js_rem (a b : Q) : Q :=
  let q := (a / b)%Q in
  (a - b * inject_Z (Z.quot (Qnum q) (Z.pos (Qden q))))%Q.

(** [generateNodeColor(index, total)]; both arguments are an array index and
    an array length.  [colors[index]] is [undefined], here [None], behind the
    end of the palette. *)
Definition generateNodeColor (index total : nat) : option string :=
  if (total <=? List.length colors)%nat then nth_error colors index
  else
    let hue :=
      js_rem (inject_Z (Z.of_nat index) * 360 / inject_Z (Z.of_nat total)) 360 in
    let saturation := (65 + (index mod 3) * 10)%nat in
    let lightness := (50 + (index mod 2) * 15)%nat in
    Some ("hsl(" ++ NumberToString (Num hue) ++ ", "
          ++ NumberToString (of_nat saturation) ++ "%, "
          ++ NumberToString (of_nat lightness) ++ "%)")%string.

(** The [itemStyle.color] of the entries of [series[0].data] in the chart
    option: [data.nodes.map((node, index) => generateNodeColor(index,
    data.nodes.length))]. *)
Definition node_colors (nodes : list SankeyNode) : list (option string) :=
  map (fun index => generateNodeColor index (List.length nodes))
      (seq 0 (List.length nodes)).

End NodeColours.

(* ------------------------------------------------------------------ *)
(** ** Further vocabulary *)

Section MoreVocabulary.
Context {rt : JSRuntime}.

(** A value above zero. *)
Definition positive (v : number) : Prop :=
  exists q, v = Num q /\ (0 < q)%Q.

(** A second invariant of the traversal, on where depths come from: a
    processed node of depth above 0 is entered by a link from a processed node
    one level up, and so will the queued names be; a node not processed yet
    has depth 0. *)
Record tight (links : list SankeyLink) (d : Z) (cur nxt : list string)
    (st : layering) : Prop := mkTight {
  tight_queue : queue st = cur ++ nxt;
  tight_level : (0 <= d)%Z;
  tight_visited :
    forall v, In v (visited st) ->
      exists dv,
        depth_is (nodeMap st) v dv /\ (0 <= dv <= d)%Z /\
        ((0 < dv)%Z ->
         exists l, In l links /\ targetName l = v /\
                   In (sourceName l) (visited st) /\
                   depth_is (nodeMap st) (sourceName l) (dv - 1));
  tight_cur :
    forall q, In q cur -> (0 < d)%Z ->
      exists l, In l links /\ targetName l = q /\
                In (sourceName l) (visited st) /\
                depth_is (nodeMap st) (sourceName l) (d - 1);
  tight_nxt :
    forall q, In q nxt ->
      exists l, In l links /\ targetName l = q /\
                In (sourceName l) (visited st) /\
                depth_is (nodeMap st) (sourceName l) d;
  tight_unvisited :
    forall x node, JsMap.get (nodeMap st) x = Some node ->
      ~ In x (visited st) -> node_depth node = Some (of_Z 0)
}.

End MoreVocabulary.

(** *** Vocabulary of the template proofs *)

(** [s] without its first [k] characters. *)
Fixpoint drop (k : nat) (s : string) : string :=
  match k, s with
  | O, _ => s
  | S k', String _ s' => drop k' s'
  | S _, EmptyString => EmptyString
  end.

(** No ["{"] in [s]. *)
Fixpoint brace_free (s : string) : bool :=
  match s with
  | EmptyString => true
  | String c s' => negb (c =? "{")%char && brace_free s'
  end.

(** [s] and [o] are the same up to and including their first ["{"]. *)
Fixpoint same_to_brace (s o : string) : Prop :=
  match s, o with
  | EmptyString, EmptyString => True
  | String c s', String c' o' =>
      c = c' /\ (c <> "{"%char -> same_to_brace s' o')
  | _, _ => False
  end.

(** The variables the loop warns about. *)
Definition unsupported (varName : string) : bool :=
  negb (list_includes supportedVariables ("{" ++ varName ++ "}")).

(** The replacement [r] in front of any text brings no occurrence of [q]. *)
Definition seam_free (r q : string) : Prop :=
  forall o, includes (r ++ o) q = includes o q.

(** The four deprecated placeholders with their replacements. *)
Definition migrations : list (string * string) :=
  [("{data.source}", "{source}"); ("{data.target}", "{target}");
   ("{data.value}", "{value}"); ("{data.id}", "{id}")].

(** A template with none of the deprecated placeholders. *)
Definition migrated (s : string) : Prop :=
  forall p r, In (p, r) migrations -> includes s p = false.

(** Example templates. *)
Definition old_template : string :=
  "{data.source} to {data.target}: {data.value} {unit}".

Definition new_template : string := "{source} to {target}: {value}".

(** Scenario A with depths left over from an earlier run. *)
Definition scenario_A_stale_nodes : list SankeyNode :=
  [set_depth (node_named "A") 7; set_depth (node_named "B") 7;
   set_depth (node_named "C") 7].

(* ------------------------------------------------------------------ *)
(** ** Facts about the runtime model *)

Lemma trimStart_idem (s : list ascii) : trimStart (trimStart s) = trimStart s.
Proof.
  induction s as [|c s IH]; simpl; [reflexivity|].
  destruct (isWhiteSpace c) eqn:E; [exact IH|].
  simpl. rewrite E. reflexivity.
Qed.

Lemma trimStart_snoc (s : list ascii) (c : ascii) :
  isWhiteSpace c = false -> exists s', trimStart (s ++ [c]) = s' ++ [c].
Proof.
  intros Hc. induction s as [|a s IH]; simpl.
  - rewrite Hc. exists []. reflexivity.
  - destruct (isWhiteSpace a).
    + exact IH.
    + exists (a :: s). reflexivity.
Qed.

Lemma trimStart_fixed (s : list ascii) :
  match s with [] => True | c :: _ => isWhiteSpace c = false end ->
  trimStart s = s.
Proof.
  destruct s as [|c s]; simpl; [reflexivity|]. intros ->. reflexivity.
Qed.

Lemma trimStart_head (s : list ascii) :
  match trimStart s with [] => True | c :: _ => isWhiteSpace c = false end.
Proof.
  induction s as [|c s IH]; simpl; [exact I|].
  destruct (isWhiteSpace c) eqn:E; [exact IH|exact E].
Qed.

Lemma trimEnd_head (s : list ascii) :
  match s with [] => True | c :: _ => isWhiteSpace c = false end ->
  match trimEnd s with [] => True | c :: _ => isWhiteSpace c = false end.
Proof.
  destruct s as [|c s]; [intros _; exact I|].
  intros Hc. unfold trimEnd. simpl rev.
  destruct (trimStart_snoc (rev s) c Hc) as [s' ->].
  rewrite rev_app_distr. simpl. exact Hc.
Qed.

Lemma trimEnd_idem (s : list ascii) : trimEnd (trimEnd s) = trimEnd s.
Proof.
  unfold trimEnd. rewrite rev_involutive, trimStart_idem. reflexivity.
Qed.

(** Trimming a trimmed string changes nothing. *)
Lemma trim_idem (s : string) : trim (trim s) = trim s.
Proof.
  unfold trim. rewrite list_ascii_of_string_of_list_ascii.
  rewrite (trimStart_fixed (trimEnd _)).
  - rewrite trimEnd_idem. reflexivity.
  - apply trimEnd_head, trimStart_head.
Qed.

Lemma or_zero_not_NaN (a : number) : or_zero a <> NaN.
Proof.
  unfold or_zero. destruct a as [|q]; simpl; [discriminate|].
  destruct (Qeq_bool q 0); discriminate.
Qed.

Lemma js_le0_false_pos (a : number) :
  a <> NaN -> js_le0 a = false -> exists q, a = Num q /\ (0 < q)%Q.
Proof.
  destruct a as [|q]; [congruence|]. intros _ H. exists q. split; [reflexivity|].
  simpl in H. apply Qnot_le_lt. intros Hle.
  apply Qle_bool_iff in Hle. congruence.
Qed.

Lemma js_le0_true_iff (a : number) :
  js_le0 a = true <-> exists q, a = Num q /\ (q <= 0)%Q.
Proof.
  destruct a as [|q]; simpl.
  - split; [discriminate|]. intros (q & H & _). discriminate.
  - rewrite Qle_bool_iff. split.
    + intros H. exists q. auto.
    + intros (q' & H & Hle). injection H as ->. exact Hle.
Qed.

(* ------------------------------------------------------------------ *)
(** ** [Set] and [Map] facts *)

Module JsSetFacts.
Import JsSet.

Lemma has_In (s : t) (k : string) : has s k = true <-> In k s.
Proof.
  induction s as [|a s IH]; simpl; [now split|].
  rewrite orb_true_iff, IH, String.eqb_eq. tauto.
Qed.

Lemma has_false (s : t) (k : string) : has s k = false <-> ~ In k s.
Proof.
  rewrite <- has_In. destruct (has s k); split; congruence.
Qed.

Lemma In_add (s : t) (k x : string) : In x (add s k) <-> In x s \/ x = k.
Proof.
  unfold add. destruct (has s k) eqn:E.
  - apply has_In in E. split; [tauto|]. intros [H| ->]; assumption.
  - rewrite in_app_iff. simpl. intuition congruence.
Qed.

Lemma has_add (s : t) (k x : string) :
  has (add s k) x = has s x || (k =? x).
Proof.
  apply eq_true_iff_eq.
  rewrite orb_true_iff, !has_In, In_add, String.eqb_eq.
  intuition congruence.
Qed.

End JsSetFacts.

Module JsMapFacts.
Import JsMap.

Section WithValues.
Context {V : Type}.
Implicit Types (m : t V) (k : string) (v : V).

Lemma get_set_same m k v : get (set m k v) k = Some v.
Proof.
  induction m as [|[k' v'] m IH]; simpl.
  - rewrite String.eqb_refl. reflexivity.
  - destruct (k' =? k) eqn:E; simpl; rewrite E; auto.
Qed.

Lemma get_set_other m k k' v : k <> k' -> get (set m k v) k' = get m k'.
Proof.
  intros Hne. induction m as [|[a v'] m IH]; simpl.
  - apply String.eqb_neq in Hne. rewrite Hne. reflexivity.
  - destruct (a =? k) eqn:E; simpl.
    + apply String.eqb_eq in E. subst a.
      apply String.eqb_neq in Hne. rewrite Hne. reflexivity.
    + destruct (a =? k'); auto.
Qed.

Lemma get_In m k v : get m k = Some v -> In (k, v) m.
Proof.
  induction m as [|[a v'] m IH]; simpl; [discriminate|].
  destruct (a =? k) eqn:E.
  - apply String.eqb_eq in E. intros H. injection H as ->. subst. now left.
  - auto.
Qed.

Lemma get_None m k : get m k = None <-> ~ In k (keys m).
Proof.
  induction m as [|[a v'] m IH]; simpl; [tauto|].
  destruct (a =? k) eqn:E.
  - apply String.eqb_eq in E. split; [discriminate|tauto].
  - apply String.eqb_neq in E. rewrite IH. tauto.
Qed.

Lemma get_Some_key m k v : get m k = Some v -> In k (keys m).
Proof.
  intros H. apply get_In in H. apply (in_map fst) in H. exact H.
Qed.

Lemma In_get m k v : NoDup (keys m) -> In (k, v) m -> get m k = Some v.
Proof.
  induction m as [|[a v'] m IH]; simpl; [tauto|].
  intros Hnd [H|H].
  - injection H as -> ->. rewrite String.eqb_refl. reflexivity.
  - inversion Hnd as [|? ? Hnot Hnd']; subst.
    destruct (a =? k) eqn:E.
    + apply String.eqb_eq in E. subst a. exfalso. apply Hnot.
      apply (in_map fst) in H. exact H.
    + auto.
Qed.

Lemma set_absent m k v : get m k = None -> set m k v = m ++ [(k, v)].
Proof.
  induction m as [|[a v'] m IH]; simpl; [reflexivity|].
  destruct (a =? k); [discriminate|]. intros H. rewrite IH by exact H.
  reflexivity.
Qed.

Lemma keys_set_present m k v v0 : get m k = Some v0 -> keys (set m k v) = keys m.
Proof.
  induction m as [|[a v'] m IH]; simpl; [discriminate|].
  destruct (a =? k); simpl; [reflexivity|]. intros H. f_equal. auto.
Qed.

Lemma In_keys_set m k v x : In x (keys (set m k v)) <-> In x (keys m) \/ x = k.
Proof.
  destruct (get m k) as [v0|] eqn:E.
  - rewrite (keys_set_present _ _ v _ E). apply get_Some_key in E.
    intuition congruence.
  - rewrite (set_absent _ _ v E). unfold keys. rewrite map_app, in_app_iff.
    simpl. intuition congruence.
Qed.

Lemma NoDup_keys_set m k v : NoDup (keys m) -> NoDup (keys (set m k v)).
Proof.
  intros Hnd. destruct (get m k) as [v0|] eqn:E.
  - rewrite (keys_set_present _ _ v _ E). exact Hnd.
  - rewrite (set_absent _ _ v E). unfold keys. rewrite map_app. simpl.
    apply NoDup_app; [exact Hnd|repeat constructor; simpl; tauto|].
    intros a Ha [<-|[]]. apply get_None in E. exact (E Ha).
Qed.

Lemma Forall_set (P : string * V -> Prop) m k v :
  Forall P m -> P (k, v) -> Forall P (set m k v).
Proof.
  intros Hm Hv. induction m as [|[a v'] m IH]; simpl.
  - repeat constructor. exact Hv.
  - inversion Hm; subst. destruct (String.eqb_spec a k) as [->|Hne].
    + constructor; assumption.
    + constructor; auto.
Qed.

Lemma map_set_same {B : Type} (f : string * V -> B) m k v v' :
  get m k = Some v -> f (k, v') = f (k, v) -> map f (set m k v') = map f m.
Proof.
  intros Hg Hf. induction m as [|[a w] m IH]; simpl in *; [discriminate|].
  destruct (String.eqb_spec a k) as [->|Hne]; simpl.
  - injection Hg as ->. rewrite Hf. reflexivity.
  - rewrite IH by exact Hg. reflexivity.
Qed.

Lemma of_list_distinct (entries : list (string * V)) m :
  NoDup (keys m ++ map fst entries) ->
  fold_left (fun m kv => set m (fst kv) (snd kv)) entries m = m ++ entries.
Proof.
  revert m. induction entries as [|[k v] es IH]; intros m Hnd; simpl.
  - rewrite app_nil_r. reflexivity.
  - assert (Hnone : get m k = None).
    { apply get_None. intros Hin. simpl in Hnd.
      apply NoDup_remove_2 in Hnd. apply Hnd, in_or_app. left. exact Hin. }
    rewrite (set_absent _ _ _ Hnone), IH.
    + rewrite <- app_assoc. reflexivity.
    + unfold keys. rewrite map_app. simpl. rewrite <- app_assoc. exact Hnd.
Qed.

Lemma In_keys_of_list (entries : list (string * V)) m x :
  In x (keys (fold_left (fun m kv => set m (fst kv) (snd kv)) entries m)) <->
  In x (keys m) \/ In x (map fst entries).
Proof.
  revert m. induction entries as [|[k v] es IH]; intros m; simpl; [tauto|].
  rewrite IH, In_keys_set. intuition congruence.
Qed.

Lemma length_set m k v : (List.length (set m k v) <= S (List.length m))%nat.
Proof.
  induction m as [|[a v'] m IH]; simpl; [lia|].
  destruct (a =? k); simpl; lia.
Qed.

End WithValues.
End JsMapFacts.

(* ------------------------------------------------------------------ *)
(** ** Row ingestion *)

Section Ingestion.
Context {rt : JSRuntime}.
Variables sourceData targetData valueData : list cell.

Lemma ingest_rows_fold (rows : list nat) (acc : JsSet.t * list SankeyLink) :
  fold_left (ingest_row sourceData targetData valueData) rows acc =
  (fold_left JsSet.add
     (flat_map (row_names sourceData targetData valueData) rows) (fst acc),
   snd acc ++ flat_map (row_links sourceData targetData valueData) rows).
Proof.
  revert acc. induction rows as [|i rows IH]; intros [names ls]; simpl.
  - rewrite app_nil_r. reflexivity.
  - rewrite IH. unfold ingest_row, row_names, row_links, row_dropped.
    destruct (row_invalid _ _ _); simpl.
    + reflexivity.
    + rewrite <- app_assoc. reflexivity.
Qed.

Lemma row_dropped_iff (i : nat) :
  row_dropped sourceData targetData valueData i = true <->
  label_at sourceData i = "" \/ label_at targetData i = "" \/
  exists q, value_at valueData i = Num q /\ (q <= 0)%Q.
Proof.
  unfold row_dropped, row_invalid.
  rewrite !orb_true_iff, !String.eqb_eq, js_le0_true_iff. tauto.
Qed.

Lemma label_at_trimmed (col : list cell) (i : nat) :
  trim (label_at col i) = label_at col i.
Proof. unfold label_at. apply trim_idem. Qed.

Lemma row_links_well_formed (i : nat) :
  Forall well_formed_link (row_links sourceData targetData valueData i).
Proof.
  unfold row_links, row_dropped, row_invalid.
  destruct (label_at sourceData i =? "") eqn:Es; simpl; [constructor|].
  destruct (label_at targetData i =? "") eqn:Et; simpl; [constructor|].
  destruct (js_le0 (value_at valueData i)) eqn:Ev; [constructor|].
  constructor; [|constructor].
  destruct (js_le0_false_pos (value_at valueData i)) as (q & Hq & Hpos);
    [apply or_zero_not_NaN|exact Ev|].
  apply String.eqb_neq in Es, Et.
  exists (label_at sourceData i), (label_at targetData i), q. simpl.
  repeat split; auto using label_at_trimmed.
Qed.


End Ingestion.


Section IngestionTheorems.
Context {rt : JSRuntime}.

(** What the function computes once the guards have passed. *)
Lemma transform_rows (data : SigmaData) (sc tc vc : string) :
  sc <> "" -> tc <> "" -> vc <> "" ->
  List.length (column data sc) = List.length (column data tc) ->
  List.length (column data sc) = List.length (column data vc) ->
  let rows := seq 0 (List.length (column data sc)) in
  transformSigmaDataToSankey (Some data) (Some sc) (Some tc) (Some vc) =
  mkChart
    (map node_named
       (JsSet.of_list
          (flat_map (row_names (column data sc) (column data tc) (column data vc))
                    rows)))
    (flat_map (row_links (column data sc) (column data tc) (column data vc)) rows).
Proof.
  intros Hs Ht Hv Hst Hsv rows. unfold transformSigmaDataToSankey.
  apply String.eqb_neq in Hs, Ht, Hv. rewrite Hs, Ht, Hv. simpl.
  rewrite <- Hst, <- Hsv, Nat.eqb_refl. simpl.
  rewrite ingest_rows_fold. reflexivity.
Qed.

Lemma transform_cases (sigmaData : option SigmaData)
    (sourceColumn targetColumn valueColumn : option string) :
  transformSigmaDataToSankey sigmaData sourceColumn targetColumn valueColumn
    = empty_graph
  \/ exists data sc tc vc,
       sigmaData = Some data /\ sourceColumn = Some sc /\
       targetColumn = Some tc /\ valueColumn = Some vc /\
       sc <> "" /\ tc <> "" /\ vc <> "" /\
       List.length (column data sc) = List.length (column data tc) /\
       List.length (column data sc) = List.length (column data vc).
Proof.
  destruct sigmaData as [data|]; [|left; reflexivity].
  destruct sourceColumn as [sc|]; [|left; reflexivity].
  destruct targetColumn as [tc|]; [|left; reflexivity].
  destruct valueColumn as [vc|]; [|left; reflexivity].
  unfold transformSigmaDataToSankey.
  destruct (sc =? "") eqn:Es; [left; reflexivity|].
  destruct (tc =? "") eqn:Et; [left; reflexivity|].
  destruct (vc =? "") eqn:Ev; [left; reflexivity|]. simpl.
  destruct (List.length (column data sc) =? List.length (column data tc))%nat
    eqn:E1; [|left; reflexivity].
  destruct (List.length (column data sc) =? List.length (column data vc))%nat
    eqn:E2; [|left; reflexivity].
  right. exists data, sc, tc, vc.
  apply String.eqb_neq in Es, Et, Ev. apply Nat.eqb_eq in E1, E2.
  repeat split; assumption.
Qed.










(** C8. A missing data object, a missing or empty column selector, or selected
    columns of unequal length make the function return the empty graph; it is
    a total function, so nothing is raised and no row is processed. *)
Theorem C8_shape_errors_give_empty_graph (sigmaData : option SigmaData)
    (sourceColumn targetColumn valueColumn : option string) :
  sigmaData = None \/
  selector_missing sourceColumn = true \/
  selector_missing targetColumn = true \/
  selector_missing valueColumn = true \/
  (exists data sc tc vc,
      sigmaData = Some data /\ sourceColumn = Some sc /\
      targetColumn = Some tc /\ valueColumn = Some vc /\
      ~ (List.length (column data sc) = List.length (column data tc) /\
         List.length (column data sc) = List.length (column data vc))) ->
  transformSigmaDataToSankey sigmaData sourceColumn targetColumn valueColumn
    = mkChart [] [].
Proof.
  intros H.
  destruct (transform_cases sigmaData sourceColumn targetColumn valueColumn)
    as [E|(data & sc & tc & vc & -> & -> & -> & -> & Hs & Ht & Hv & Hst & Hsv)];
    [exact E|].
  exfalso. simpl in H.
  destruct H as [H|[H|[H|[H|H]]]]; try discriminate;
    try (apply String.eqb_eq in H; congruence).
  destruct H as (d & s & t & v & Hd & Hsc & Htc & Hvc & Hne).
  injection Hd as <-. injection Hsc as <-. injection Htc as <-.
  injection Hvc as <-. apply Hne. split; assumption.
Qed.

(** No link built by ingestion has an identifier. *)
Lemma transform_links_without_id (sigmaData : option SigmaData)
    (sourceColumn targetColumn valueColumn : option string) :
  Forall (fun link => link_id link = None)
    (links (transformSigmaDataToSankey sigmaData sourceColumn targetColumn
              valueColumn)).
Proof.
  destruct (transform_cases sigmaData sourceColumn targetColumn valueColumn)
    as [->|(data & sc & tc & vc & -> & -> & -> & -> & Hs & Ht & Hv & Hst & Hsv)].
  - constructor.
  - rewrite (transform_rows data sc tc vc Hs Ht Hv Hst Hsv). simpl.
    apply Forall_flat_map, Forall_forall. intros i _.
    unfold row_links. destruct (row_dropped _ _ _ i); repeat constructor.
Qed.

End IngestionTheorems.

(* ------------------------------------------------------------------ *)
(** ** Edge aggregation *)

Section Aggregation.
Context {rt : JSRuntime}.
Import JsMap JsMapFacts.

Lemma aggregate_step_get (m : t SankeyLink) (done : list SankeyLink)
    (link : SankeyLink) :
  (forall k, get m k = merged k done) ->
  forall k, get (aggregate_step m link) k = merged k (done ++ [link]).
Proof.
  intros Hm k. unfold aggregate_step, merged. rewrite filter_app. simpl.
  destruct (String.eqb_spec (link_key link) k) as [<-|Hne].
  - rewrite Hm. unfold merged.
    destruct (filter _ done) as [|first rest]; simpl.
    + rewrite get_set_same. destruct link; reflexivity.
    + rewrite get_set_same. unfold add_value. simpl.
      rewrite map_app, fold_left_app. reflexivity.
  - rewrite app_nil_r.
    destruct (get m (link_key link));
      rewrite get_set_other by exact Hne; apply Hm.
Qed.

Lemma aggregate_fold_get (rest done : list SankeyLink) (m : t SankeyLink) :
  (forall k, get m k = merged k done) ->
  forall k, get (fold_left aggregate_step rest m) k = merged k (done ++ rest).
Proof.
  revert done m. induction rest as [|link rest IH]; intros done m Hm k; simpl.
  - rewrite app_nil_r. apply Hm.
  - replace (done ++ link :: rest) with ((done ++ [link]) ++ rest)
      by (rewrite <- app_assoc; reflexivity).
    apply IH. apply aggregate_step_get. exact Hm.
Qed.

Lemma aggregate_step_keyed (m : t SankeyLink) (link : SankeyLink) :
  keyed m -> keyed (aggregate_step m link).
Proof.
  intros [Hnd Hk]. unfold aggregate_step.
  destruct (get m (link_key link)) as [acc|] eqn:E; split;
    try (apply NoDup_keys_set; exact Hnd); apply Forall_set; try exact Hk.
  - simpl. apply get_In in E. rewrite Forall_forall in Hk.
    apply (Hk _ E).
  - reflexivity.
Qed.

Lemma aggregate_fold_keyed (ls : list SankeyLink) (m : t SankeyLink) :
  keyed m -> keyed (fold_left aggregate_step ls m).
Proof.
  revert m. induction ls as [|link ls IH]; intros m Hm; simpl; [exact Hm|].
  apply IH, aggregate_step_keyed, Hm.
Qed.

Lemma aggregateLinks_keys (ls : list SankeyLink) :
  map link_key (aggregateLinks ls) = keys (fold_left aggregate_step ls empty).
Proof.
  unfold aggregateLinks, values, keys.
  destruct (aggregate_fold_keyed ls empty) as [_ Hk].
  { split; constructor. }
  rewrite map_map. apply map_ext_in. intros kv Hin.
  rewrite Forall_forall in Hk. apply Hk, Hin.
Qed.

Lemma aggregateLinks_NoDup (ls : list SankeyLink) :
  NoDup (map link_key (aggregateLinks ls)).
Proof.
  rewrite aggregateLinks_keys.
  apply (aggregate_fold_keyed ls empty). split; constructor.
Qed.

(** Every output edge is the merge of the input edges under its key. *)
Lemma aggregateLinks_merged (ls : list SankeyLink) (o : SankeyLink) :
  In o (aggregateLinks ls) -> merged (link_key o) ls = Some o.
Proof.
  intros Hin. unfold aggregateLinks, values in Hin.
  apply in_map_iff in Hin. destruct Hin as ([k v] & Hv & Hin).
  simpl in Hv. subst v.
  destruct (aggregate_fold_keyed ls empty) as [Hnd Hk].
  { split; constructor. }
  rewrite Forall_forall in Hk. pose proof (Hk _ Hin) as Hko. simpl in Hko.
  subst k. apply (In_get _ _ _ Hnd) in Hin.
  rewrite (aggregate_fold_get ls [] empty) in Hin; [exact Hin|].
  intros k. reflexivity.
Qed.

Lemma merged_In (ls : list SankeyLink) (link : SankeyLink) :
  In link ls -> exists o, merged (link_key link) ls = Some o /\
                          In o (aggregateLinks ls).
Proof.
  intros Hin.
  assert (Hf : In link (filter (fun l => link_key l =? link_key link) ls)).
  { apply filter_In. split; [exact Hin|apply String.eqb_refl]. }
  destruct (merged (link_key link) ls) as [o|] eqn:E.
  - exists o. split; [reflexivity|].
    rewrite <- (aggregate_fold_get ls [] empty) in E by reflexivity.
    apply get_In in E. unfold aggregateLinks, values.
    apply in_map_iff. exists (link_key link, o). auto.
  - unfold merged in E. destruct (filter _ ls); [contradiction|discriminate].
Qed.

(** On links with distinct keys aggregation copies its input. *)
Lemma aggregate_fold_distinct (vs : list SankeyLink) (m : t SankeyLink) :
  NoDup (keys m ++ map link_key vs) ->
  fold_left aggregate_step vs m = m ++ map (fun v => (link_key v, v)) vs.
Proof.
  revert m. induction vs as [|v vs IH]; intros m Hnd; simpl.
  - rewrite app_nil_r. reflexivity.
  - assert (Hnone : get m (link_key v) = None).
    { apply get_None. intros Hin. simpl in Hnd.
      apply NoDup_remove_2 in Hnd. apply Hnd, in_or_app. left. exact Hin. }
    unfold aggregate_step at 2. rewrite Hnone, (set_absent _ _ _ Hnone).
    rewrite IH.
    + rewrite <- app_assoc. reflexivity.
    + unfold keys. rewrite map_app. simpl. rewrite <- app_assoc. exact Hnd.
Qed.

(** C9. Aggregating an aggregated list returns it unchanged: same edges, same
    values, same order. *)
Theorem C9_aggregateLinks_idempotent (ls : list SankeyLink) :
  aggregateLinks (aggregateLinks ls) = aggregateLinks ls.
Proof.
  pose proof (aggregateLinks_NoDup ls) as Hnd.
  unfold aggregateLinks at 1.
  rewrite aggregate_fold_distinct by exact Hnd.
  unfold values. simpl. rewrite map_map. simpl. apply map_id.
Qed.

(** The key determines the pair when no source contains the separator. *)
Lemma arrow_key_injective (s1 s2 t1 t2 : string) :
  includes_arrow s1 = false -> includes_arrow s2 = false ->
  (s1 ++ "->" ++ t1 = s2 ++ "->" ++ t2)%string -> s1 = s2 /\ t1 = t2.
Proof.
  revert s2. induction s1 as [|c s1 IH]; intros [|c' s2] H1 H2 E.
  - simpl in E. injection E as ->. auto.
  - exfalso. simpl in E. injection E as E1 E. subst c'.
    destruct s2 as [|c'' s2]; simpl in E; [inversion E|].
    injection E as E1 _. subst c''. simpl in H2. discriminate.
  - exfalso. simpl in E. injection E as E1 E. subst c.
    destruct s1 as [|c'' s1]; simpl in E; [inversion E|].
    injection E as E1 _. subst c''. simpl in H1. discriminate.
  - simpl in E. injection E as E1 E. subst c'.
    simpl in H1, H2. apply orb_false_iff in H1, H2.
    destruct (IH s2) as [E1 E2]; try tauto. subst. auto.
Qed.

Lemma link_key_pair (a b : SankeyLink) :
  pair_of a = pair_of b -> link_key a = link_key b.
Proof.
  unfold pair_of, link_key. intros E. injection E as -> ->. reflexivity.
Qed.

Lemma pair_eqb_eq (p q : string * string) : pair_eqb p q = true <-> p = q.
Proof.
  destruct p, q. unfold pair_eqb. simpl.
  rewrite andb_true_iff, !String.eqb_eq. split.
  - intros [-> ->]. reflexivity.
  - intros E. injection E. auto.
Qed.

Lemma merged_pair (ls : list SankeyLink) (k : string) (o : SankeyLink) :
  merged k ls = Some o ->
  exists first rest,
    filter (fun link => link_key link =? k) ls = first :: rest /\
    pair_of o = pair_of first /\
    link_value o = sum_values (map link_value (first :: rest)).
Proof.
  unfold merged. destruct (filter _ ls) as [|first rest]; [discriminate|].
  intros E. injection E as <-. exists first, rest. auto.
Qed.

(** C2, as amended.  When no source label contains the separator ["->"], the
    output has exactly one edge per distinct ordered pair of end points of the
    input, and the value of each output edge is the sum of the values of
    exactly the input edges with its pair. *)
Theorem C2_aggregateLinks_by_pair (ls : list SankeyLink) :
  Forall (fun link => includes_arrow (String_label (link_source link)) = false)
         ls ->
  aggregates_by_pair ls (aggregateLinks ls).
Proof.
  intros Harrow. rewrite Forall_forall in Harrow.
  assert (Hinj : forall a b, In a ls -> In b ls ->
                   link_key a = link_key b -> pair_of a = pair_of b).
  { intros a b Ha Hb E. unfold link_key in E.
    destruct (arrow_key_injective _ _ _ _ (Harrow a Ha) (Harrow b Hb) E)
      as [Es Et].
    unfold pair_of. rewrite Es, Et. reflexivity. }
  assert (Hfirst : forall o, In o (aggregateLinks ls) ->
            exists first rest,
              filter (fun link => link_key link =? link_key o) ls
                = first :: rest /\
              In first ls /\ link_key first = link_key o /\
              pair_of o = pair_of first /\
              link_value o = sum_values (map link_value (first :: rest))).
  { intros o Ho. apply aggregateLinks_merged in Ho.
    destruct (merged_pair _ _ _ Ho) as (first & rest & Hf & Hp & Hv).
    exists first, rest.
    assert (Hin : In first (filter (fun l => link_key l =? link_key o) ls))
      by (rewrite Hf; now left).
    apply filter_In in Hin. destruct Hin as [Hin Hk].
    apply String.eqb_eq in Hk. auto. }
  split; [|split].
  - apply (NoDup_map_inv (fun p => (fst p ++ "->" ++ snd p)%string)).
    rewrite map_map. exact (aggregateLinks_NoDup ls).
  - intros p. rewrite !in_map_iff. split.
    + intros (o & <- & Ho).
      destruct (Hfirst o Ho) as (first & _ & _ & Hin & _ & Hp & _).
      exists first. auto.
    + intros (link & <- & Hin).
      destruct (merged_In ls link Hin) as (o & Hm & Ho).
      exists o. split; [|exact Ho].
      destruct (merged_pair _ _ _ Hm) as (first & rest & Hf & Hp & _).
      assert (Hfin : In first
                (filter (fun l => link_key l =? link_key link) ls))
        by (rewrite Hf; now left).
      apply filter_In in Hfin. destruct Hfin as [Hfin Hk].
      apply String.eqb_eq in Hk.
      rewrite Hp. apply Hinj; assumption.
  - intros o Ho.
    destruct (Hfirst o Ho) as (first & rest & Hf & Hfin & Hk & Hp & Hv).
    rewrite Hv, <- Hf. f_equal. f_equal.
    apply filter_ext_in. intros link Hin.
    apply eq_true_iff_eq. rewrite String.eqb_eq, pair_eqb_eq. split.
    + intros E. rewrite Hp. apply Hinj; congruence.
    + intros E. rewrite <- Hk. apply link_key_pair. congruence.
Qed.

End Aggregation.

(* ------------------------------------------------------------------ *)
(** ** Graph validation *)

Section Validation.
Context {rt : JSRuntime}.

Lemma In_fold_add (xs : list string) (s : JsSet.t) (k : string) :
  In k (fold_left JsSet.add xs s) <-> In k s \/ In k xs.
Proof.
  revert s. induction xs as [|x xs IH]; intros s; simpl; [tauto|].
  rewrite IH, JsSetFacts.In_add. intuition congruence.
Qed.

Lemma has_nodeNames (ns : list SankeyNode) (k : string) :
  JsSet.has (validate_nodeNames ns) k = true <-> In k (map node_name ns).
Proof.
  unfold validate_nodeNames, JsSet.of_list.
  rewrite JsSetFacts.has_In, In_fold_add. simpl. tauto.
Qed.

Lemma In_linkNodes (ls : list SankeyLink) (s : JsSet.t) (k : string) :
  In k (fold_left
          (fun s link =>
             JsSet.add (JsSet.add s (String_label (link_source link)))
                       (String_label (link_target link))) ls s) <->
  In k s \/ exists link, In link ls /\
              (String_label (link_source link) = k \/
               String_label (link_target link) = k).
Proof.
  revert s. induction ls as [|l ls IH]; intros s; simpl.
  - split; [tauto|]. intros [H|(link & [] & _)]. exact H.
  - rewrite IH, !JsSetFacts.In_add. split.
    + intros [[[H|H]|H]|(link & Hin & H)]; eauto 6.
    + intros [H|(link & [<-|Hin] & H)]; eauto 6.
      destruct H as [H|H]; subst; auto.
Qed.

Lemma has_linkNodes (ls : list SankeyLink) (k : string) :
  JsSet.has (validate_linkNodes ls) k = true <->
  exists link, In link ls /\
    (String_label (link_source link) = k \/ String_label (link_target link) = k).
Proof.
  unfold validate_linkNodes. rewrite JsSetFacts.has_In, In_linkNodes.
  simpl. tauto.
Qed.

Lemma In_push_if (c : bool) (msg m : string) (l : list string) :
  In m (push_if c msg l) <-> In m l \/ (c = true /\ m = msg).
Proof.
  unfold push_if. destruct c.
  - rewrite in_app_iff. simpl. intuition congruence.
  - intuition congruence.
Qed.

Lemma nonempty_true {A : Type} (xs : list A) : nonempty xs = true <-> xs <> [].
Proof.
  unfold nonempty. destruct xs; simpl; split; congruence.
Qed.

Lemma length_zero_true {A : Type} (xs : list A) :
  (List.length xs =? 0)%nat = true <-> xs = [].
Proof.
  destruct xs; simpl; split; congruence.
Qed.

(** C5. [isValid] is [errors.length == 0] on every path, so it depends on the
    errors alone.  When both collections are present, the warnings are the
    orphan message (when some node is referenced by no link) and the self-link
    message (when some link has identical end points), and nothing else; the
    errors are the two emptiness messages, the dangling-reference message
    (when some link names an absent node) and the non-positive-value message
    (when some link has a value at most 0), and nothing else. *)
Theorem C5_validator_soundness (data_nodes : option (list SankeyNode))
    (data_links : option (list SankeyLink)) :
  let report := validateSankeyData data_nodes data_links in
  isValid report = (List.length (errors report) =? 0)%nat /\
  (isValid report = true <-> errors report = []) /\
  (forall ns ls, data_nodes = Some ns -> data_links = Some ls ->
     (forall m, In m (warnings report) <->
        (orphanedNodes ns ls <> [] /\ m = msg_orphaned (orphanedNodes ns ls)) \/
        (selfLinks ls <> [] /\ m = msg_self (selfLinks ls))) /\
     (forall m, In m (errors report) <->
        (ns = [] /\ m = msg_no_nodes) \/
        (ls = [] /\ m = msg_no_links) \/
        (invalidLinks ns ls <> [] /\ m = msg_invalid (invalidLinks ns ls)) \/
        (negativeValueLinks ls <> [] /\
         m = msg_negative (negativeValueLinks ls))) /\
     (forall node, In node (orphanedNodes ns ls) <->
        In node ns /\
        forall link, In link ls ->
          String_label (link_source link) <> node_name node /\
          String_label (link_target link) <> node_name node) /\
     (forall link, In link (invalidLinks ns ls) <->
        In link ls /\
        (~ In (String_label (link_source link)) (map node_name ns) \/
         ~ In (String_label (link_target link)) (map node_name ns))) /\
     (forall link, In link (selfLinks ls) <->
        In link ls /\ label_strict_eq (link_source link) (link_target link) = true) /\
     (forall link, In link (negativeValueLinks ls) <->
        In link ls /\ exists q, link_value link = Num q /\ (q <= 0)%Q)).
Proof.
  intros report. subst report.
  destruct data_nodes as [ns|], data_links as [ls|]; simpl;
    try (repeat split; try discriminate; intros; discriminate).
  split; [reflexivity|]. split; [apply length_zero_true|].
  intros ns' ls' E1 E2. injection E1 as <-. injection E2 as <-.
  split; [|split; [|split; [|split; [|split]]]].
  - intros m. rewrite !In_push_if, !nonempty_true. simpl. tauto.
  - intros m. rewrite !In_push_if, !nonempty_true, !length_zero_true.
    simpl. tauto.
  - intros node. unfold orphanedNodes. rewrite filter_In, negb_true_iff.
    rewrite <- not_true_iff_false, has_linkNodes. split.
    + intros [Hin Hno]. split; [exact Hin|]. intros link Hl.
      split; intros E; apply Hno; exists link; auto.
    + intros [Hin Hno]. split; [exact Hin|]. intros (link & Hl & H).
      destruct (Hno link Hl). tauto.
  - intros link. unfold invalidLinks.
    rewrite filter_In, orb_true_iff, !negb_true_iff.
    rewrite <- !not_true_iff_false, !has_nodeNames. tauto.
  - intros link. unfold selfLinks. rewrite filter_In. tauto.
  - intros link. unfold negativeValueLinks.
    rewrite filter_In, js_le0_true_iff. tauto.
Qed.

End Validation.

(* ------------------------------------------------------------------ *)
(** ** Node layering: termination and frame *)

Section LayeringBasics.
Context {rt : JSRuntime}.
Variable links : list SankeyLink.
Import JsMap JsMapFacts.

Lemma relax_queue_length (name : string) (vis : JsSet.t) (ls : list SankeyLink)
    (acc : JsMap.t Z * list string) :
  (List.length (snd (fold_left (relax name vis) ls acc))
   <= List.length (snd acc) + outgoing name ls)%nat.
Proof.
  revert acc. induction ls as [|l ls IH]; intros acc; simpl; [lia|].
  etransitivity; [apply IH|]. unfold relax, outgoing. simpl.
  destruct (sourceName l =? name); simpl; [|lia].
  destruct (_ && _); simpl; rewrite ?length_app; simpl; lia.
Qed.

Lemma pending_add (vis : JsSet.t) (name : string) :
  JsSet.has vis name = false ->
  (pending links (JsSet.add vis name) + outgoing name links = pending links vis)%nat.
Proof.
  intros Hn. unfold pending, outgoing.
  induction links as [|l ls IH]; simpl; [reflexivity|].
  rewrite JsSetFacts.has_add.
  destruct (String.eqb_spec (sourceName l) name) as [E|E].
  - rewrite E, Hn, String.eqb_refl. simpl. lia.
  - rewrite (String.eqb_sym name). apply String.eqb_neq in E. rewrite E.
    rewrite orb_false_r. destruct (JsSet.has vis (sourceName l)); simpl; lia.
Qed.

Lemma process_node_potential (d : Z) (st : layering) (name : string) :
  (potential links (process_node links d st name) <= potential links st)%nat.
Proof.
  unfold process_node.
  destruct (get (nodeMap st) name) as [node|]; [|lia].
  destruct (JsSet.has (visited st) name) eqn:Hv; [lia|].
  pose proof (relax_queue_length name (JsSet.add (visited st) name) links
                (inDegree st, queue st)) as Hq.
  destruct (fold_left _ links _) as [deg' q'].
  unfold potential. simpl in *.
  pose proof (pending_add (visited st) name Hv). lia.
Qed.

Lemma process_level_potential (d : Z) (k : nat) (st : layering) :
  (k <= List.length (queue st))%nat ->
  (potential links (process_level links d k st) + k <= potential links st)%nat.
Proof.
  revert st. induction k as [|k IH]; intros st Hk; simpl; [lia|].
  destruct st as [m vis deg q]. simpl in *.
  destruct q as [|name rest]; simpl in *; [lia|].
  pose proof (process_node_potential d (mkLayering m vis deg rest) name) as Hp.
  assert (Hlen : (k <= List.length
                    (queue (process_node links d (mkLayering m vis deg rest) name)))%nat).
  { unfold process_node. simpl.
    destruct (get m name); simpl; [|lia].
    destruct (JsSet.has vis name); simpl; [lia|].
    pose proof (relax_queue_length name (JsSet.add vis name) links (deg, rest)).
    assert (Hmono : forall ls acc,
              (List.length (snd acc)
               <= List.length (snd (fold_left (relax name (JsSet.add vis name))
                                              ls acc)))%nat).
    { induction ls as [|l ls IHl]; intros acc; simpl; [lia|].
      etransitivity; [|apply IHl]. unfold relax.
      destruct (sourceName l =? name); simpl; [|lia].
      destruct (_ && _); simpl; rewrite ?length_app; simpl; lia. }
    specialize (Hmono links (deg, rest)).
    destruct (fold_left _ links _); simpl in *. lia. }
  specialize (IH _ Hlen). unfold potential in *. simpl in *. lia.
Qed.

(** With fuel for the potential, the loop runs until the queue is empty. *)
Lemma bfs_terminates (fuel : nat) (d : Z) (st : layering) :
  (potential links st <= fuel)%nat ->
  exists st', bfs links fuel d st = Some st'.
Proof.
  revert d st. induction fuel as [|fuel IH]; intros d st Hp.
  - destruct st as [m vis deg [|name rest]]; simpl; [eauto|].
    unfold potential in Hp. simpl in Hp. lia.
  - simpl. destruct (queue st) as [|name rest] eqn:Hq; [eauto|].
    apply IH.
    pose proof (process_level_potential d (List.length (queue st)) st
                  (Nat.le_refl _)) as Hl.
    rewrite Hq in Hl. simpl in Hl. simpl. lia.
Qed.

Lemma length_start_queue (m : JsMap.t Z) :
  (List.length (start_queue m) <= List.length m)%nat.
Proof.
  unfold start_queue.
  assert (H : forall q,
            (List.length
               (fold_left
                  (fun q kv => if (snd kv =? 0)%Z then q ++ [fst kv] else q) m q)
             <= List.length q + List.length m)%nat).
  { induction m as [|kv m IH]; intros q; simpl; [lia|].
    etransitivity; [apply IH|].
    destruct (snd kv =? 0)%Z; rewrite ?length_app; simpl; lia. }
  apply (H []).
Qed.

Lemma length_init_inDegree (nodes : list SankeyNode) :
  (List.length (init_inDegree nodes) <= List.length nodes)%nat.
Proof.
  unfold init_inDegree.
  assert (H : forall m,
            (List.length
               (fold_left (fun m node => set m (node_name node) 0%Z) nodes m)
             <= List.length m + List.length nodes)%nat).
  { induction nodes as [|n ns IH]; intros m; simpl; [lia|].
    etransitivity; [apply IH|].
    pose proof (length_set m (node_name n) 0%Z). lia. }
  apply (H empty).
Qed.

Lemma length_count_inDegree (ls : list SankeyLink) (m : JsMap.t Z) :
  (List.length (count_inDegree ls m) <= List.length m + List.length ls)%nat.
Proof.
  unfold count_inDegree. revert m.
  induction ls as [|l ls IH]; intros m; simpl; [lia|].
  etransitivity; [apply IH|].
  pose proof (length_set m (targetName l) (get0 m (targetName l) + 1)%Z). lia.
Qed.

(** The function returns on every input. *)
Lemma calculateNodeDepths_total (nodes : list SankeyNode) :
  exists result, calculateNodeDepths nodes links = Some result.
Proof.
  unfold calculateNodeDepths.
  destruct (bfs_terminates (bfs_fuel nodes links) 0 (init_layering nodes links))
    as [st' ->]; [|eauto].
  unfold potential, init_layering, bfs_fuel, pending. simpl.
  pose proof (length_start_queue (count_inDegree links (init_inDegree nodes))).
  pose proof (length_count_inDegree links (init_inDegree nodes)).
  pose proof (length_init_inDegree nodes).
  pose proof (filter_length_le (fun _ : SankeyLink => true) links).
  lia.
Qed.

(** A property of the node map that assigning a depth preserves holds after
    the traversal. *)
Section NodeMapInvariant.
Variable P : JsMap.t SankeyNode -> Prop.
Hypothesis P_set :
  forall m k node d,
    (0 <= d)%Z -> P m -> get m k = Some node ->
    P (set m k (set_depth node d)).

Lemma process_node_nodeMap (d : Z) (st : layering) (name : string) :
  (0 <= d)%Z -> P (nodeMap st) -> P (nodeMap (process_node links d st name)).
Proof.
  intros Hd HP. unfold process_node.
  destruct (get (nodeMap st) name) as [node|] eqn:E; [|exact HP].
  destruct (JsSet.has (visited st) name); [exact HP|].
  destruct (fold_left _ links _) as [deg' q']. simpl.
  apply P_set; assumption.
Qed.

Lemma process_level_nodeMap (d : Z) (k : nat) (st : layering) :
  (0 <= d)%Z -> P (nodeMap st) -> P (nodeMap (process_level links d k st)).
Proof.
  intros Hd. revert st. induction k as [|k IH]; intros st HP; simpl;
    [exact HP|].
  destruct (queue st) as [|name rest]; [exact HP|].
  apply IH. apply process_node_nodeMap; assumption.
Qed.

Lemma bfs_nodeMap (fuel : nat) (d : Z) (st st' : layering) :
  (0 <= d)%Z -> P (nodeMap st) -> bfs links fuel d st = Some st' ->
  P (nodeMap st').
Proof.
  revert d st. induction fuel as [|fuel IH]; intros d st Hd HP; simpl.
  - destruct (queue st); [|discriminate]. intros E. injection E as <-.
    exact HP.
  - destruct (queue st) eqn:Hq.
    + intros E. injection E as <-. exact HP.
    + apply IH; [lia|]. apply process_level_nodeMap; assumption.
Qed.

Lemma calculateNodeDepths_nodeMap (nodes result : list SankeyNode) :
  P (init_nodeMap nodes) ->
  calculateNodeDepths nodes links = Some result ->
  exists m, P m /\ result = values m.
Proof.
  intros HP. unfold calculateNodeDepths.
  destruct (bfs links _ 0 _) as [st'|] eqn:E; [|discriminate].
  intros R. injection R as <-. exists (nodeMap st'). split; [|reflexivity].
  apply (bfs_nodeMap (bfs_fuel nodes links) 0 (init_layering nodes links) st');
    [lia|exact HP|exact E].
Qed.

End NodeMapInvariant.

Lemma init_nodeMap_Forall (Q : string * SankeyNode -> Prop)
    (nodes : list SankeyNode) :
  (forall node, Q (node_name node, set_depth node 0)) ->
  Forall Q (init_nodeMap nodes).
Proof.
  intros HQ. unfold init_nodeMap, of_list.
  assert (H : forall m,
            Forall Q m ->
            Forall Q
              (fold_left (fun m kv => set m (fst kv) (snd kv))
                 (map (fun node => (node_name node, set_depth node 0)) nodes) m)).
  { induction nodes as [|n ns IH]; intros m Hm; simpl; [exact Hm|].
    apply IH, Forall_set; [exact Hm|]. apply HQ. }
  apply H. constructor.
Qed.

Lemma init_nodeMap_keys (nodes : list SankeyNode) (x : string) :
  In x (keys (init_nodeMap nodes)) <-> In x (map node_name nodes).
Proof.
  unfold init_nodeMap, of_list. rewrite In_keys_of_list, map_map. simpl.
  tauto.
Qed.

(** C7. On every input the function returns, every returned node has a depth
    that is a non-negative integer, and every input node name is among the
    returned nodes; nodes the traversal never reaches keep the depth 0 they
    are created with.  The result is a function of the input. *)
Theorem C7_every_node_has_a_depth (nodes : list SankeyNode) :
  exists result,
    calculateNodeDepths nodes links = Some result /\
    Forall has_depth result /\
    (forall name, In name (map node_name nodes) ->
                  In name (map node_name result)).
Proof.
  destruct (calculateNodeDepths_total nodes) as [result Hr].
  exists result. split; [exact Hr|].
  destruct (calculateNodeDepths_nodeMap
              (fun m => Forall (fun kv => has_depth (snd kv)) m /\
                        keys m = keys (init_nodeMap nodes) /\
                        Forall (fun kv => node_name (snd kv) = fst kv) m))
    with (nodes := nodes) (result := result) as (m & (Hd & Hk & Hn) & ->).
  - intros m k node d Hd (Hm & Hk & Hn) Hg. split; [|split].
    + apply Forall_set; [exact Hm|]. exists d. auto.
    + rewrite (keys_set_present _ _ _ _ Hg). exact Hk.
    + apply Forall_set; [exact Hn|]. simpl.
      apply get_In in Hg. rewrite Forall_forall in Hn. apply (Hn _ Hg).
  - split; [|split; [reflexivity|]]; apply init_nodeMap_Forall.
    + intros node. exists 0%Z. simpl. split; [reflexivity|lia].
    + reflexivity.
  - exact Hr.
  - split.
    + unfold values. apply Forall_map. exact Hd.
    + intros name Hin. apply init_nodeMap_keys in Hin. rewrite <- Hk in Hin.
      unfold values. rewrite map_map. unfold keys in Hin.
      erewrite map_ext_in; [exact Hin|].
      intros kv Hkv. rewrite Forall_forall in Hn. apply Hn, Hkv.
Qed.

(** C10. When the input names are pairwise distinct the result has one node
    per input node, in input order, and each differs from its input node in
    the depth at most. *)
Theorem C10_only_depth_changes (nodes : list SankeyNode) :
  NoDup (map node_name nodes) ->
  exists result,
    calculateNodeDepths nodes links = Some result /\
    Forall2 (fun node out =>
               node_name out = node_name node /\
               node_id out = node_id node /\
               node_value out = node_value node)
            nodes result.
Proof.
  intros Hnd. destruct (calculateNodeDepths_total nodes) as [result Hr].
  exists result. split; [exact Hr|].
  destruct (calculateNodeDepths_nodeMap
              (fun m => map (fun kv => node_frame (snd kv)) m =
                        map node_frame nodes))
    with (nodes := nodes) (result := result) as (m & Hm & ->).
  - intros m k node d _ Hm Hg.
    rewrite (map_set_same _ m k node _ Hg); [exact Hm|reflexivity].
  - unfold init_nodeMap, of_list. rewrite of_list_distinct.
    + simpl. rewrite map_map. reflexivity.
    + simpl. rewrite map_map. exact Hnd.
  - exact Hr.
  - unfold values. clear Hr. revert m Hm.
    induction nodes as [|n ns IH]; intros [|[k v] m] Hm; simpl in Hm;
      try discriminate; simpl; constructor.
    + unfold node_frame in Hm. simpl in Hm.
      injection Hm as E1 E2 E3 Hrest. auto.
    + apply IH; [now inversion Hnd|].
      unfold node_frame in Hm. simpl in Hm.
      injection Hm as E1 E2 E3 Hrest. exact Hrest.
Qed.

End LayeringBasics.

(* ------------------------------------------------------------------ *)
(** ** Node layering: the order of depths *)

Section LayeringOrder.
Context {rt : JSRuntime}.
Variable links : list SankeyLink.
Import JsMap JsMapFacts.

Lemma get0_set_same (m : JsMap.t Z) (k : string) (v : Z) :
  get0 (set m k v) k = v.
Proof. unfold get0. rewrite get_set_same. reflexivity. Qed.

Lemma get0_set_other (m : JsMap.t Z) (k k' : string) (v : Z) :
  k <> k' -> get0 (set m k v) k' = get0 m k'.
Proof. intros H. unfold get0. rewrite get_set_other by exact H. reflexivity. Qed.

Section Relax.
Variables (name : string) (vis : JsSet.t).

Lemma relax_fold_get0 (ls : list SankeyLink) (acc : JsMap.t Z * list string)
    (t : string) :
  get0 (fst (fold_left (relax name vis) ls acc)) t =
  (get0 (fst acc) t - Z.of_nat (flows name t ls))%Z.
Proof.
  revert acc. induction ls as [|l ls IH]; intros acc; simpl.
  - unfold flows. simpl. lia.
  - rewrite IH. unfold relax, flows. simpl.
    destruct (sourceName l =? name); simpl; [|lia].
    assert (E : get0 (set (fst acc) (targetName l)
                          (get0 (fst acc) (targetName l) - 1)%Z) t =
                (get0 (fst acc) t
                 - (if (targetName l =? t)%string then 1 else 0))%Z).
    { destruct (String.eqb_spec (targetName l) t) as [<-|Hne].
      - apply get0_set_same.
      - rewrite get0_set_other by exact Hne. lia. }
    destruct (_ && _); simpl; rewrite E;
      destruct (targetName l =? t); simpl; lia.
Qed.

Lemma relax_fold_queue (ls : list SankeyLink) (acc : JsMap.t Z * list string) :
  exists pushed,
    snd (fold_left (relax name vis) ls acc) = snd acc ++ pushed /\
    forall t, In t pushed ->
      JsSet.has vis t = false /\
      (get0 (fst (fold_left (relax name vis) ls acc)) t <= 0)%Z.
Proof.
  revert acc. induction ls as [|l ls IH]; intros acc; simpl.
  - exists []. rewrite app_nil_r. split; [reflexivity|]. intros t [].
  - destruct (IH (relax name vis acc l)) as (pushed & Hq & Hp).
    unfold relax in Hq |- *. unfold relax in Hp.
    destruct (sourceName l =? name) eqn:Es; simpl in *;
      [|exists pushed; auto].
    destruct ((get0 (fst acc) (targetName l) - 1 =? 0)%Z) eqn:Ez; simpl in *;
      [|exists pushed; auto].
    destruct (JsSet.has vis (targetName l)) eqn:Ev; simpl in *;
      [exists pushed; auto|].
    exists (targetName l :: pushed). split.
    + rewrite Hq, <- app_assoc. reflexivity.
    + intros t [<-|Hin]; [|auto]. split; [exact Ev|].
      rewrite relax_fold_get0. simpl. rewrite get0_set_same.
      apply Z.eqb_eq in Ez. lia.
Qed.

Lemma relax_fold_queue_mono (ls : list SankeyLink)
    (acc : JsMap.t Z * list string) (t : string) :
  In t (snd acc) -> In t (snd (fold_left (relax name vis) ls acc)).
Proof.
  destruct (relax_fold_queue ls acc) as (pushed & -> & _).
  intros H. apply in_or_app. left. exact H.
Qed.

(** A target whose counter ends at zero after at least one decrement has
    been pushed. *)
Lemma relax_fold_ready (ls : list SankeyLink) (acc : JsMap.t Z * list string)
    (t : string) :
  JsSet.has vis t = false ->
  (1 <= flows name t ls)%nat ->
  get0 (fst (fold_left (relax name vis) ls acc)) t = 0%Z ->
  In t (snd (fold_left (relax name vis) ls acc)).
Proof.
  intros Hv. revert acc. induction ls as [|l ls IH]; intros acc Hc Hz.
  - unfold flows in Hc. simpl in Hc. lia.
  - simpl in *.
    destruct (Nat.eq_dec (flows name t ls) 0) as [H0|H0].
    + (* the last link from [name] to [t] *)
      rewrite relax_fold_get0, H0 in Hz.
      unfold flows in Hc. simpl in Hc.
      apply relax_fold_queue_mono. unfold relax in Hz |- *.
      destruct (sourceName l =? name) eqn:Es; simpl in *;
        [|unfold flows in H0; lia].
      destruct (String.eqb_spec (targetName l) t) as [E|E]; simpl in *;
        [|unfold flows in H0; lia].
      subst t.
      destruct ((get0 (fst acc) (targetName l) - 1 =? 0)%Z) eqn:Ez;
        simpl in *.
      * rewrite Hv. simpl. apply in_or_app. right. now left.
      * rewrite get0_set_same in Hz. apply Z.eqb_neq in Ez. lia.
    + apply IH; [lia|exact Hz].
Qed.

End Relax.

Lemma unvisited_in_add (vis : JsSet.t) (name t : string) :
  JsSet.has vis name = false ->
  (unvisited_in links (JsSet.add vis name) t + flows name t links
   = unvisited_in links vis t)%nat.
Proof.
  intros Hn. unfold unvisited_in, flows.
  induction links as [|l ls IH]; simpl; [reflexivity|].
  rewrite JsSetFacts.has_add.
  destruct (targetName l =? t); simpl.
  - destruct (String.eqb_spec (sourceName l) name) as [E|E].
    + rewrite E, Hn, String.eqb_refl. simpl. lia.
    + rewrite (String.eqb_sym name). apply String.eqb_neq in E. rewrite E.
      rewrite orb_false_r. destruct (JsSet.has vis (sourceName l)); simpl; lia.
  - rewrite andb_false_r. exact IH.
Qed.

Lemma unvisited_in_zero (vis : JsSet.t) (t : string) (l : SankeyLink) :
  unvisited_in links vis t = 0%nat -> In l links -> targetName l = t ->
  In (sourceName l) vis.
Proof.
  unfold unvisited_in. intros H0 Hin Ht.
  destruct (JsSet.has vis (sourceName l)) eqn:Ev;
    [apply JsSetFacts.has_In; exact Ev|].
  exfalso.
  assert (Hf : In l (filter
                       (fun l => (targetName l =? t)
                                 && negb (JsSet.has vis (sourceName l))) links)).
  { apply filter_In. split; [exact Hin|].
    rewrite Ht, String.eqb_refl, Ev. reflexivity. }
  destruct (filter _ links); [contradiction|discriminate].
Qed.

Lemma unvisited_in_all_visited (vis : JsSet.t) (t : string) :
  (forall l, In l links -> targetName l = t -> In (sourceName l) vis) ->
  unvisited_in links vis t = 0%nat.
Proof.
  intros H. unfold unvisited_in.
  destruct (filter _ links) as [|l ls] eqn:E; [reflexivity|]. exfalso.
  assert (Hin : In l (l :: ls)) by now left.
  rewrite <- E in Hin. apply filter_In in Hin. destruct Hin as [Hin Hb].
  apply andb_true_iff in Hb. destruct Hb as [Ht Hv].
  apply String.eqb_eq in Ht. apply negb_true_iff in Hv.
  apply JsSetFacts.has_false in Hv. apply Hv, H; assumption.
Qed.

(** One shift off the queue keeps the invariant. *)
Lemma process_node_layered (d : Z) (n : string) (cur nxt : list string)
    (m : JsMap.t SankeyNode) (vis : JsSet.t) (deg : JsMap.t Z) :
  layered links d (n :: cur) nxt (mkLayering m vis deg (n :: cur ++ nxt)) ->
  exists pushed,
    layered links d cur (nxt ++ pushed)
      (process_node links d (mkLayering m vis deg (cur ++ nxt)) n).
Proof.
  intros [Hq Hdeg Hvis Hedge Hcur Hnxt Hready]. simpl in *.
  unfold process_node. simpl.
  destruct (get m n) as [node|] eqn:Hg.
  2: { exists []. rewrite app_nil_r. constructor; simpl; auto.
       - intros q l Hq'. apply Hcur. now right.
       - intros t Ht Hv H0.
         destruct (Hready t Ht Hv H0) as [<-|H]; [congruence|exact H]. }
  destruct (JsSet.has vis n) eqn:Hv.
  { exists []. rewrite app_nil_r. constructor; simpl; auto.
    - intros q l Hq'. apply Hcur. now right.
    - intros t Ht Hnv H0.
      destruct (Hready t Ht Hnv H0) as [<-|H]; [|exact H].
      apply JsSetFacts.has_In in Hv. contradiction. }
  destruct (relax_fold_queue n (JsSet.add vis n) links (deg, cur ++ nxt))
    as (pushed & Hpq & Hpushed).
  pose proof (fun t => relax_fold_get0 n (JsSet.add vis n) links
                         (deg, cur ++ nxt) t) as Hdeg'.
  pose proof (fun t => relax_fold_ready n (JsSet.add vis n) links
                         (deg, cur ++ nxt) t) as Hrdy.
  destruct (fold_left (relax n (JsSet.add vis n)) links (deg, cur ++ nxt))
    as [deg' q']. simpl in *.
  exists pushed.
  assert (Hn : ~ In n vis) by (apply JsSetFacts.has_false; exact Hv).
  assert (Hdeg2 : forall t,
            get0 deg' t = Z.of_nat (unvisited_in links (JsSet.add vis n) t)).
  { intros t. rewrite Hdeg', Hdeg.
    pose proof (unvisited_in_add vis n t Hv). lia. }
  assert (Hkeep : forall x dv,
            In x vis -> depth_is m x dv ->
            depth_is (set m n (set_depth node d)) x dv).
  { intros x dv Hx (nd & Hgx & Hd). exists nd.
    rewrite get_set_other; [auto|]. intros ->. contradiction. }
  assert (Hnew : depth_is (set m n (set_depth node d)) n d).
  { exists (set_depth node d). rewrite get_set_same. auto. }
  assert (Hvis2 : forall v, In v (JsSet.add vis n) ->
            exists dv, depth_is (set m n (set_depth node d)) v dv /\
                       (dv <= d)%Z).
  { intros v Hin. apply JsSetFacts.In_add in Hin. destruct Hin as [Hin| ->].
    - destruct (Hvis v Hin) as (dv & Hd & Hle). exists dv. auto.
    - exists d. split; [exact Hnew|lia]. }
  constructor; simpl.
  - rewrite Hpq, app_assoc. reflexivity.
  - exact Hdeg2.
  - exact Hvis2.
  - intros l Hl Ht. apply JsSetFacts.In_add in Ht. destruct Ht as [Ht|Ht].
    + destruct (Hedge l Hl Ht) as (ds & dt & Hs & Hds & Hdt & Hle).
      exists ds, dt. repeat split; auto.
      apply JsSetFacts.In_add. now left.
    + destruct (Hcur n l (or_introl eq_refl) Hl Ht) as (ds & Hs & Hds & Hle).
      exists ds, d. rewrite Ht. repeat split; auto.
      apply JsSetFacts.In_add. now left.
  - intros q l Hq' Hl Ht.
    destruct (Hcur q l (or_intror Hq') Hl Ht) as (ds & Hs & Hds & Hle).
    exists ds. repeat split; auto. apply JsSetFacts.In_add. now left.
  - intros q l Hq' Hl Ht. apply in_app_or in Hq'. destruct Hq' as [Hq'|Hq'].
    + destruct (Hnxt q l Hq' Hl Ht) as (ds & Hs & Hds & Hle).
      exists ds. repeat split; auto. apply JsSetFacts.In_add. now left.
    + destruct (Hpushed q Hq') as [_ Hle]. rewrite Hdeg2 in Hle.
      assert (H0 : unvisited_in links (JsSet.add vis n) q = 0%nat) by lia.
      pose proof (unvisited_in_zero _ _ l H0 Hl Ht) as Hs.
      destruct (Hvis2 _ Hs) as (ds & Hds & Hle'). exists ds. auto.
  - intros t Hgt Hnv H0.
    assert (Htn : t <> n).
    { intros ->. apply Hnv, JsSetFacts.In_add. now right. }
    rewrite get_set_other in Hgt by congruence.
    assert (Htv : ~ In t vis).
    { intros H. apply Hnv, JsSetFacts.In_add. now left. }
    destruct (Nat.eq_dec (unvisited_in links vis t) 0) as [E|E].
    + destruct (Hready t Hgt Htv E) as [E'|H]; [congruence|].
      rewrite app_assoc. apply in_or_app. now left.
    + rewrite app_assoc, <- Hpq. apply Hrdy.
      * apply JsSetFacts.has_false. exact Hnv.
      * pose proof (unvisited_in_add vis n t Hv). lia.
      * rewrite Hdeg2, H0. reflexivity.
Qed.

Lemma process_level_layered (d : Z) (cur : list string) :
  forall nxt st,
    layered links d cur nxt st ->
    exists nxt', layered links d [] nxt'
                   (process_level links d (List.length cur) st).
Proof.
  induction cur as [|n cur IH]; intros nxt st H; simpl.
  - exists nxt. exact H.
  - destruct st as [m vis deg q]. pose proof (lay_queue _ _ _ _ _ H) as Hq.
    simpl in Hq. subst q. simpl.
    destruct (process_node_layered d n cur nxt m vis deg H) as (pushed & H').
    exact (IH _ _ H').
Qed.

(** The next wave starts from what the last one pushed. *)
Lemma layered_next_wave (d : Z) (nxt : list string) (st : layering) :
  layered links d [] nxt st -> layered links (d + 1) (queue st) [] st.
Proof.
  intros [Hq Hdeg Hvis Hedge Hcur Hnxt Hready]. simpl in Hq. rewrite Hq.
  constructor; auto.
  - rewrite app_nil_r. exact Hq.
  - intros v Hv. destruct (Hvis v Hv) as (dv & Hd & Hle). exists dv.
    split; [exact Hd|lia].
  - intros q l Hq' Hl Ht. destruct (Hnxt q l Hq' Hl Ht) as (ds & Hs & Hd & Hle).
    exists ds. repeat split; auto. lia.
  - intros q l [].
  - rewrite app_nil_r. exact Hready.
Qed.

Lemma bfs_layered (fuel : nat) :
  forall d st st',
    layered links d (queue st) [] st ->
    bfs links fuel d st = Some st' ->
    exists d', layered links d' [] [] st'.
Proof.
  induction fuel as [|fuel IH]; intros d st st' H; simpl.
  - destruct (queue st) eqn:Hq; [|discriminate].
    intros E. injection E as <-. exists d. exact H.
  - destruct (queue st) as [|n rest] eqn:Hq.
    + intros E. injection E as <-. exists d. exact H.
    + rewrite <- Hq.
      destruct (process_level_layered d (queue st) [] st) as (nxt' & H').
      { rewrite Hq. exact H. }
      apply IH. apply (layered_next_wave _ nxt'). exact H'.
Qed.

(** *** The initial state *)

Lemma start_queue_In (m : JsMap.t Z) (q : string) :
  In q (start_queue m) <-> In (q, 0%Z) m.
Proof.
  unfold start_queue.
  assert (H : forall q0,
            In q (fold_left
                    (fun q kv => if (snd kv =? 0)%Z then q ++ [fst kv] else q)
                    m q0) <->
            In q q0 \/ In (q, 0%Z) m).
  { induction m as [|[k v] m IH]; intros q0; simpl; [tauto|].
    rewrite IH. destruct (Z.eqb_spec v 0) as [->|Hne].
    - rewrite in_app_iff. simpl. split.
      + intros [[H|[->|[]]]|H]; auto.
      + intros [H|[H|H]]; auto. injection H as ->. auto.
    - split; [tauto|]. intros [H|[H|H]]; auto. injection H as _ E.
      congruence. }
  rewrite H. simpl. tauto.
Qed.

Lemma count_inDegree_get0 (ls : list SankeyLink) (m : JsMap.t Z) (t : string) :
  get0 (count_inDegree ls m) t =
  (get0 m t
   + Z.of_nat (List.length (filter (fun l => (targetName l =? t)%string) ls)))%Z.
Proof.
  unfold count_inDegree. revert m.
  induction ls as [|l ls IH]; intros m; simpl; [lia|].
  rewrite IH. destruct (String.eqb_spec (targetName l) t) as [<-|Hne].
  - rewrite get0_set_same. simpl List.length. lia.
  - rewrite get0_set_other by exact Hne. lia.
Qed.

Lemma count_inDegree_keys (ls : list SankeyLink) (m : JsMap.t Z) :
  (NoDup (keys m) -> NoDup (keys (count_inDegree ls m))) /\
  (forall x, In x (keys m) -> In x (keys (count_inDegree ls m))).
Proof.
  unfold count_inDegree. revert m.
  induction ls as [|l ls IH]; intros m; simpl; [tauto|].
  destruct (IH (set m (targetName l) (get0 m (targetName l) + 1)%Z))
    as [IH1 IH2].
  split.
  - intros H. apply IH1, NoDup_keys_set, H.
  - intros x H. apply IH2, In_keys_set. now left.
Qed.

Lemma init_inDegree_spec (nodes : list SankeyNode) :
  NoDup (keys (init_inDegree nodes)) /\
  (forall x, In x (map node_name nodes) -> In x (keys (init_inDegree nodes))) /\
  (forall t, get0 (init_inDegree nodes) t = 0%Z).
Proof.
  unfold init_inDegree.
  assert (H : forall m : JsMap.t Z,
            NoDup (keys m) -> (forall t, get0 m t = 0%Z) ->
            let m' := fold_left (fun m node => set m (node_name node) 0%Z)
                                nodes m in
            NoDup (keys m') /\
            (forall x, In x (keys m) \/ In x (map node_name nodes) ->
                       In x (keys m')) /\
            (forall t, get0 m' t = 0%Z)).
  { induction nodes as [|n ns IH]; intros m Hnd H0; simpl.
    - repeat split; auto. intros x [H|[]]. exact H.
    - destruct (IH (set m (node_name n) 0%Z)) as (I1 & I2 & I3).
      + apply NoDup_keys_set, Hnd.
      + intros t. destruct (String.eqb_spec (node_name n) t) as [<-|Hne].
        * apply get0_set_same.
        * rewrite get0_set_other by exact Hne. apply H0.
      + repeat split; auto. intros x Hx. apply I2. rewrite In_keys_set.
        intuition congruence. }
  destruct (H empty) as (I1 & I2 & I3); [constructor|reflexivity|].
  repeat split; auto.
Qed.

Lemma unvisited_in_empty (t : string) :
  unvisited_in links JsSet.empty t =
  List.length (filter (fun l => targetName l =? t) links).
Proof.
  unfold unvisited_in. f_equal. apply filter_ext. intros l. simpl.
  apply andb_true_r.
Qed.

Lemma init_layered (nodes : list SankeyNode) :
  layered links 0 (queue (init_layering nodes links)) []
          (init_layering nodes links).
Proof.
  destruct (init_inDegree_spec nodes) as (Hnd & Hkeys & Hz).
  pose proof (count_inDegree_keys links (init_inDegree nodes)) as [Hnd' Hkeys'].
  assert (Hdeg : forall t,
            get0 (count_inDegree links (init_inDegree nodes)) t =
            Z.of_nat (unvisited_in links JsSet.empty t)).
  { intros t. rewrite count_inDegree_get0, Hz, unvisited_in_empty. lia. }
  unfold init_layering. constructor; simpl.
  - rewrite app_nil_r. reflexivity.
  - exact Hdeg.
  - intros v [].
  - intros l _ [].
  - intros q l Hq Hl Ht. exfalso.
    apply start_queue_In in Hq. apply In_get in Hq; [|auto].
    assert (H0 : unvisited_in links JsSet.empty q = 0%nat).
    { specialize (Hdeg q). unfold get0 in Hdeg. rewrite Hq in Hdeg. lia. }
    exact (unvisited_in_zero _ _ l H0 Hl Ht).
  - intros q l [].
  - intros t Hg _ H0. rewrite app_nil_r. apply start_queue_In.
    assert (Hin : In t (keys (count_inDegree links (init_inDegree nodes)))).
    { apply Hkeys', Hkeys, init_nodeMap_keys.
      destruct (get (init_nodeMap nodes) t) eqn:E; [|congruence].
      eapply get_Some_key, E. }
    specialize (Hdeg t). rewrite H0 in Hdeg. unfold get0 in Hdeg.
    destruct (get (count_inDegree links (init_inDegree nodes)) t) as [v|] eqn:E.
    + simpl in Hdeg. subst v. apply get_In, E.
    + apply get_None in E. contradiction.
Qed.

Lemma calculateNodeDepths_state (nodes result : list SankeyNode) :
  calculateNodeDepths nodes links = Some result ->
  exists st',
    bfs links (bfs_fuel nodes links) 0 (init_layering nodes links) = Some st' /\
    result = values (nodeMap st').
Proof.
  unfold calculateNodeDepths.
  destruct (bfs links _ 0 _) as [st'|]; [|discriminate].
  intros E. injection E as <-. eauto.
Qed.

Lemma bfs_named (nodes : list SankeyNode) (st' : layering) :
  bfs links (bfs_fuel nodes links) 0 (init_layering nodes links) = Some st' ->
  named nodes (nodeMap st').
Proof.
  intros E.
  apply (bfs_nodeMap links (named nodes) ) with (4 := E); [|lia|].
  - intros m k node d _ (Hk & Hnd & Hn) Hg. split; [|split].
    + rewrite (keys_set_present _ _ _ _ Hg). exact Hk.
    + apply NoDup_keys_set, Hnd.
    + apply Forall_set; [exact Hn|]. simpl.
      apply get_In in Hg. rewrite Forall_forall in Hn. apply (Hn _ Hg).
  - simpl. split; [reflexivity|]. split.
    + unfold init_nodeMap, of_list.
      assert (H : forall (es : list (string * SankeyNode)) m,
                NoDup (keys m) ->
                NoDup (keys (fold_left (fun m kv => set m (fst kv) (snd kv))
                                       es m))).
      { induction es as [|e es IH]; intros m Hm; simpl; [exact Hm|].
        apply IH, NoDup_keys_set, Hm. }
      apply H. constructor.
    + apply init_nodeMap_Forall. reflexivity.
Qed.

(** A grounded label has been processed when the queue is empty. *)
Lemma grounded_visited (nodes : list SankeyNode) (d : Z) (st : layering) :
  layered links d [] [] st ->
  (forall x, In x (map node_name nodes) -> get (nodeMap st) x <> None) ->
  forall t, grounded nodes links t -> In t (visited st).
Proof.
  intros Hlay Hkeys t Ht.
  induction Ht as [name Hname _ IH].
  destruct (JsSet.has (visited st) name) eqn:Hv;
    [apply JsSetFacts.has_In; exact Hv|].
  exfalso. apply JsSetFacts.has_false in Hv.
  apply (lay_ready _ _ _ _ _ Hlay name); auto.
  apply unvisited_in_all_visited. exact IH.
Qed.

(** *** Grounded labels and acyclic ancestries are the same *)

Lemma ancestor_last (a t : string) :
  ancestor links a t ->
  exists s, edge links s t /\ (a = s \/ ancestor links a s).
Proof.
  intros H. apply clos_trans_tn1 in H.
  destruct H as [y Hxy|y z Hyz Hxy].
  - exists a. auto.
  - exists y. split; [exact Hyz|]. right. apply clos_tn1_trans. exact Hxy.
Qed.

Lemma grounded_ancestor (nodes : list SankeyNode) (t : string) :
  grounded nodes links t ->
  forall a, ancestor links a t -> grounded nodes links a.
Proof.
  intros Ht. induction Ht as [name Hname Hprem IH]. intros a Ha.
  destruct (ancestor_last a name Ha) as (s & (l & Hl & <- & Et) & [->|Has]).
  - apply Hprem; assumption.
  - apply (IH l Hl Et). exact Has.
Qed.

Lemma grounded_irreflexive (nodes : list SankeyNode) (t : string) :
  grounded nodes links t -> ~ ancestor links t t.
Proof.
  intros Ht. induction Ht as [name Hname Hprem IH]. intros Hc.
  destruct (ancestor_last name name Hc) as (s & He & Hs).
  pose proof He as (l & Hl & Es & Et). subst s.
  apply (IH l Hl Et). destruct Hs as [<-|Hs]; [exact Hc|].
  apply t_trans with name; [apply t_step; exact He|exact Hs].
Qed.

Lemma grounded_acyclic_ancestry (nodes : list SankeyNode) (t : string) :
  grounded nodes links t -> acyclic_ancestry nodes links t.
Proof.
  intros Ht. split; [destruct Ht; assumption|].
  intros a Ha. pose proof (grounded_ancestor nodes t Ht a Ha) as Hga.
  split; [destruct Hga; assumption|].
  apply (grounded_irreflexive nodes), Hga.
Qed.

Lemma acyclic_ancestry_grounded_bounded (nodes : list SankeyNode) (k : nat) :
  forall seen t,
    NoDup seen -> incl seen (map node_name nodes) ->
    (List.length (map node_name nodes) - List.length seen <= k)%nat ->
    (forall x, In x seen -> ancestor links t x) ->
    acyclic_ancestry nodes links t -> grounded nodes links t.
Proof.
  induction k as [|k IH]; intros seen t Hnd Hincl Hk Hseen [Hname Hanc].
  all: assert (Hnew : ~ In t seen)
         by (intros Hin; destruct (Hanc t (Hseen t Hin)) as [_ Hc];
             exact (Hc (Hseen t Hin))).
  all: assert (Hlen : (List.length (t :: seen)
                       <= List.length (map node_name nodes))%nat)
         by (apply NoDup_incl_length;
             [constructor; assumption|
              intros x [<-|Hx]; [exact Hname|exact (Hincl x Hx)]]).
  all: simpl in Hlen.
  - lia.
  - constructor; [exact Hname|]. intros l Hl Et.
    assert (He : edge links (sourceName l) t) by (exists l; auto).
    apply (IH (t :: seen)).
    + constructor; assumption.
    + intros x [<-|Hx]; [exact Hname|exact (Hincl x Hx)].
    + simpl. lia.
    + intros x [<-|Hx]; [apply t_step; exact He|].
      apply t_trans with t; [apply t_step; exact He|exact (Hseen x Hx)].
    + split; [apply Hanc, t_step, He|].
      intros a Ha. apply Hanc.
      apply t_trans with (sourceName l); [exact Ha|apply t_step; exact He].
Qed.

Lemma acyclic_ancestry_grounded (nodes : list SankeyNode) (t : string) :
  acyclic_ancestry nodes links t -> grounded nodes links t.
Proof.
  apply (acyclic_ancestry_grounded_bounded nodes
           (List.length (map node_name nodes)) []).
  - constructor.
  - intros x [].
  - simpl. lia.
  - intros x [].
Qed.

(** C3, as amended.  For every link whose target names a node of the
    collection, with every label that reaches the target naming a node of the
    collection and none of them on a cycle, the result holds a node for the
    source and a node for the target, and the depth of the target is at least
    the depth of the source plus 1. *)
Theorem C3_layering_order (nodes : list SankeyNode) (l : SankeyLink) :
  In l links ->
  acyclic_ancestry nodes links (targetName l) ->
  exists result,
    calculateNodeDepths nodes links = Some result /\
    (exists ns nt, In ns result /\ In nt result /\
                   node_name ns = sourceName l /\ node_name nt = targetName l) /\
    respects result l.
Proof.
  intros Hl Hg. apply acyclic_ancestry_grounded in Hg.
  destruct (calculateNodeDepths_total links nodes) as [result Hr].
  exists result. split; [exact Hr|].
  destruct (calculateNodeDepths_state nodes result Hr) as (st' & Hbfs & ->).
  destruct (bfs_named nodes st' Hbfs) as (Hk & Hnd & Hn).
  destruct (bfs_layered _ 0 (init_layering nodes links) st'
              (init_layered nodes) Hbfs) as (d' & Hlay).
  assert (Hv : In (targetName l) (visited st')).
  { apply (grounded_visited nodes d' st' Hlay); [|exact Hg].
    intros x Hx. apply init_nodeMap_keys in Hx. rewrite <- Hk in Hx.
    intros Hnone. apply get_None in Hnone. contradiction. }
  destruct (lay_edge _ _ _ _ _ Hlay l Hl Hv)
    as (ds & dt & _ & (s & Hgs & Hds) & (t & Hgt & Hdt) & Hle).
  assert (Hfind : forall x node,
            In node (values (nodeMap st')) -> node_name node = x ->
            get (nodeMap st') x = Some node).
  { intros x node Hin Hx. unfold values in Hin.
    apply in_map_iff in Hin. destruct Hin as ([k v] & Hv' & Hin).
    simpl in Hv'. subst v. apply In_get; [exact Hnd|].
    rewrite Forall_forall in Hn. specialize (Hn _ Hin). simpl in Hn.
    congruence. }
  assert (Hval : forall x node,
            get (nodeMap st') x = Some node ->
            In node (values (nodeMap st')) /\ node_name node = x).
  { intros x node Hgx. apply get_In in Hgx. split.
    - unfold values. apply in_map_iff. exists (x, node). auto.
    - rewrite Forall_forall in Hn. apply (Hn _ Hgx). }
  split.
  - exists s, t. destruct (Hval _ _ Hgs), (Hval _ _ Hgt). auto.
  - intros ns nt Hns Hnt Es Et.
    apply (Hfind _ _ Hns) in Es. apply (Hfind _ _ Hnt) in Et.
    rewrite Hgs in Es. rewrite Hgt in Et.
    injection Es as <-. injection Et as <-.
    exists ds, dt. auto.
Qed.

End LayeringOrder.

(* ------------------------------------------------------------------ *)
(** ** Node layering: links that leave the node collection *)

Section LayeringUnknownTargets.
Context {rt : JSRuntime}.
Variable nodes : list SankeyNode.
Variable links : list SankeyLink.
Import JsMap JsMapFacts.

Lemma in_collection_In (x : string) :
  in_collection nodes x = true <-> In x (map node_name nodes).
Proof.
  unfold in_collection. rewrite existsb_exists, in_map_iff.
  split; intros (n & H1 & H2).
  - apply String.eqb_eq in H2. eauto.
  - exists n. split; [exact H2|]. apply String.eqb_eq. exact H1.
Qed.

Lemma relax_same_known (x : string) (vis : JsSet.t) (l : SankeyLink)
    (acc acc' : JsMap.t Z * list string) :
  (in_collection nodes) (targetName l) = true -> same_counters nodes acc acc' ->
  same_counters nodes (relax x vis acc l) (relax x vis acc' l).
Proof.
  intros Ek [Hdeg Hq]. unfold relax. rewrite (Hdeg _ Ek).
  destruct (sourceName l =? x); [|split; assumption].
  assert (Hset : forall v t, (in_collection nodes) t = true ->
            get0 (set (fst acc) (targetName l) v) t =
            get0 (set (fst acc') (targetName l) v) t).
  { intros v t Ht. destruct (String.eqb_spec (targetName l) t) as [<-|Hne].
    - rewrite !get0_set_same. reflexivity.
    - rewrite !get0_set_other by exact Hne. auto. }
  destruct (_ && _); split; simpl; auto.
  rewrite filter_app. simpl. rewrite Ek, Hq. reflexivity.
Qed.

Lemma relax_same_unknown (x : string) (vis : JsSet.t) (l : SankeyLink)
    (acc acc' : JsMap.t Z * list string) :
  (in_collection nodes) (targetName l) = false -> same_counters nodes acc acc' ->
  same_counters nodes (relax x vis acc l) acc'.
Proof.
  intros Ek [Hdeg Hq]. unfold relax.
  destruct (sourceName l =? x); [|split; assumption].
  assert (Hset : forall v t, (in_collection nodes) t = true ->
            get0 (set (fst acc) (targetName l) v) t = get0 (fst acc') t).
  { intros v t Ht. rewrite get0_set_other; [auto|]. intros E.
    rewrite E in Ek. congruence. }
  destruct (_ && _); split; simpl; auto.
  rewrite filter_app. simpl. rewrite Ek, app_nil_r. exact Hq.
Qed.

Lemma relax_same (x : string) (vis : JsSet.t) (ls : list SankeyLink) :
  forall acc acc',
    same_counters nodes acc acc' ->
    same_counters nodes
      (fold_left (relax x vis) ls acc)
      (fold_left (relax x vis) (filter (fun l => (in_collection nodes) (targetName l)) ls) acc').
Proof.
  induction ls as [|l ls IH]; intros acc acc' H; simpl; [exact H|].
  destruct ((in_collection nodes) (targetName l)) eqn:Ek; simpl.
  - apply IH, relax_same_known; assumption.
  - apply IH, relax_same_unknown; assumption.
Qed.

Lemma process_node_same (d : Z) (x : string) (st st' : layering) :
  same_on_collection nodes st st' ->
  same_on_collection nodes (process_node links d st x)
                           (process_node (without_unknown_targets nodes links) d st' x).
Proof.
  intros [Hm Hv Hdeg Hq Hun]. unfold process_node. rewrite <- Hm, <- Hv.
  destruct (get (nodeMap st) x) as [node|] eqn:Hg; [|constructor; auto].
  destruct (JsSet.has (visited st) x); [constructor; auto|].
  destruct (relax_same x (JsSet.add (visited st) x) links
              (inDegree st, queue st) (inDegree st', queue st')
              (conj Hdeg Hq))
    as [Hdeg2 Hq2].
  unfold without_unknown_targets.
  destruct (fold_left _ links _) as [deg1 q1].
  destruct (fold_left _ (filter _ links) _) as [deg2 q2].
  simpl in *. constructor; simpl; auto.
  intros t Ht. rewrite get_set_other; [auto|]. intros ->.
  rewrite (Hun _ Ht) in Hg. discriminate.
Qed.

Lemma process_node_queue (d : Z) (x : string) (st : layering) :
  exists pushed, queue (process_node links d st x) = queue st ++ pushed.
Proof.
  unfold process_node.
  destruct (get (nodeMap st) x); [|exists []; apply eq_sym, app_nil_r].
  destruct (JsSet.has (visited st) x); [exists []; apply eq_sym, app_nil_r|].
  destruct (relax_fold_queue x (JsSet.add (visited st) x) links
              (inDegree st, queue st)) as (pushed & Hq & _).
  destruct (fold_left _ links _) as [deg1 q1]. simpl in *. eauto.
Qed.

Lemma process_level_same (d : Z) (cur : list string) :
  forall rest st st',
    queue st = cur ++ rest ->
    same_on_collection nodes st st' ->
    same_on_collection nodes
      (process_level links d (List.length cur) st)
      (process_level (without_unknown_targets nodes links) d (List.length (filter (in_collection nodes) cur)) st').
Proof.
  induction cur as [|x cur IH]; intros rest st st' Hq Hs; simpl; [exact Hs|].
  destruct st as [m vis deg q]. simpl in Hq. subst q. simpl.
  destruct Hs as [Hm Hv Hdeg Hq Hun]. simpl in *.
  destruct ((in_collection nodes) x) eqn:Ek; simpl.
  - destruct st' as [m' vis' deg' q']. simpl in *. subst q'.
    rewrite ?Ek. simpl.
    assert (Hs : same_on_collection nodes
                   (mkLayering m vis deg (cur ++ rest))
                   (mkLayering m' vis' deg' (filter (in_collection nodes) (cur ++ rest))))
      by (constructor; auto).
    pose proof (process_node_same d x _ _ Hs) as Hs'.
    destruct (process_node_queue d x (mkLayering m vis deg (cur ++ rest)))
      as (pushed & Hp).
    simpl in Hp. rewrite <- app_assoc in Hp.
    exact (IH _ _ _ Hp Hs').
  - assert (Hskip : process_node links d (mkLayering m vis deg (cur ++ rest)) x
                    = mkLayering m vis deg (cur ++ rest)).
    { unfold process_node. simpl. rewrite (Hun _ Ek). reflexivity. }
    rewrite Hskip. apply (IH rest); [reflexivity|].
    constructor; auto.
Qed.

Lemma bfs_same (fuel : nat) :
  forall fuel' d st st' r r',
    same_on_collection nodes st st' ->
    bfs links fuel d st = Some r ->
    bfs (without_unknown_targets nodes links) fuel' d st' = Some r' ->
    nodeMap r = nodeMap r'.
Proof.
  induction fuel as [|fuel IH]; intros fuel' d st st' r r' Hs; simpl.
  - destruct (queue st) eqn:Hq; [|discriminate]. intros E. injection E as <-.
    pose proof (same_queue _ _ _ Hs) as Hq'. rewrite Hq in Hq'. simpl in Hq'.
    destruct fuel'; simpl; rewrite <- Hq'; intros E; injection E as <-;
      apply (same_nodeMap _ _ _ Hs).
  - pose proof (same_queue _ _ _ Hs) as Hq'.
    pose proof (process_level_same d (queue st) [] st st'
                  (eq_sym (app_nil_r _)) Hs) as Hl.
    rewrite Hq' in Hl.
    destruct (queue st) as [|x rest] eqn:Hq.
    + intros E. injection E as <-. simpl in Hq'.
      destruct fuel'; simpl; rewrite <- Hq'; intros E; injection E as <-;
        apply (same_nodeMap _ _ _ Hs).
    + intros E E'.
      destruct (queue st') as [|y rest'] eqn:Hq2.
      * (* the second run has stopped: the first one only skips labels *)
        simpl in Hl.
        assert (Hr' : r' = st').
        { destruct fuel'; simpl in E'; rewrite Hq2 in E'; congruence. }
        subst r'.
        apply (IH 0%nat (d + 1)%Z _ st' r st' Hl E).
        simpl. rewrite Hq2. reflexivity.
      * destruct fuel' as [|fuel']; simpl in E'; rewrite Hq2 in E';
          [discriminate|].
        exact (IH fuel' (d + 1)%Z _ _ r r' Hl E E').
Qed.

(** *** The two initial states *)

Lemma filter_set_known (m : JsMap.t Z) (k : string) (v : Z) :
  (in_collection nodes) k = true -> filter (known_entry nodes) (set m k v) = set (filter (known_entry nodes) m) k v.
Proof.
  intros Hk. unfold known_entry. induction m as [|[a w] m IH]; simpl.
  - rewrite Hk. reflexivity.
  - destruct (a =? k) eqn:E; simpl.
    + apply String.eqb_eq in E. subst a. rewrite Hk. simpl.
      rewrite String.eqb_refl. reflexivity.
    + destruct ((in_collection nodes) a); simpl; rewrite ?E, IH; reflexivity.
Qed.

Lemma filter_set_unknown (m : JsMap.t Z) (k : string) (v : Z) :
  (in_collection nodes) k = false -> filter (known_entry nodes) (set m k v) = filter (known_entry nodes) m.
Proof.
  intros Hk. unfold known_entry. induction m as [|[a w] m IH]; simpl.
  - rewrite Hk. reflexivity.
  - destruct (a =? k) eqn:E; simpl.
    + apply String.eqb_eq in E. subst a. rewrite Hk. reflexivity.
    + rewrite IH. reflexivity.
Qed.

Lemma get0_filter (m : JsMap.t Z) (k : string) :
  (in_collection nodes) k = true -> get0 (filter (known_entry nodes) m) k = get0 m k.
Proof.
  intros Hk. unfold get0, known_entry.
  induction m as [|[a w] m IH]; simpl; [reflexivity|].
  destruct (a =? k) eqn:E.
  - apply String.eqb_eq in E. subst a. rewrite Hk. simpl.
    rewrite String.eqb_refl. reflexivity.
  - destruct ((in_collection nodes) a); simpl; rewrite ?E; exact IH.
Qed.

Lemma count_inDegree_filter (ls : list SankeyLink) (m : JsMap.t Z) :
  filter (known_entry nodes) (count_inDegree ls m) =
  count_inDegree (filter (fun l => (in_collection nodes) (targetName l)) ls) (filter (known_entry nodes) m).
Proof.
  unfold count_inDegree. revert m.
  induction ls as [|l ls IH]; intros m; simpl; [reflexivity|].
  rewrite IH. destruct ((in_collection nodes) (targetName l)) eqn:Ek; simpl.
  - rewrite filter_set_known, get0_filter by exact Ek. reflexivity.
  - rewrite filter_set_unknown by exact Ek. reflexivity.
Qed.

Lemma start_queue_filter (m : JsMap.t Z) :
  filter (in_collection nodes) (start_queue m) = start_queue (filter (known_entry nodes) m).
Proof.
  unfold start_queue.
  assert (H : forall q0,
            filter (in_collection nodes)
              (fold_left
                 (fun q kv => if (snd kv =? 0)%Z then q ++ [fst kv] else q)
                 m q0) =
            fold_left
              (fun q kv => if (snd kv =? 0)%Z then q ++ [fst kv] else q)
              (filter (known_entry nodes) m) (filter (in_collection nodes) q0)).
  { induction m as [|[a w] m IH]; intros q0; simpl; [reflexivity|].
    rewrite IH. unfold known_entry at 2. simpl.
    destruct (w =? 0)%Z eqn:Ew; destruct ((in_collection nodes) a) eqn:Ea; simpl;
      rewrite ?Ew, ?filter_app; simpl; rewrite ?Ea, ?app_nil_r; reflexivity. }
  apply (H []).
Qed.

Lemma init_inDegree_known :
  filter (known_entry nodes) (init_inDegree nodes) = init_inDegree nodes.
Proof.
  unfold init_inDegree.
  assert (H : forall (ns : list SankeyNode) (m : JsMap.t Z),
            (forall n, In n ns -> (in_collection nodes) (node_name n) = true) ->
            filter (known_entry nodes) m = m ->
            filter (known_entry nodes) (fold_left (fun m node => set m (node_name node) 0%Z) ns m)
            = fold_left (fun m node => set m (node_name node) 0%Z) ns m).
  { induction ns as [|n ns IH]; intros m Hns Hm; simpl; [exact Hm|].
    apply IH; [intros n' Hn'; apply Hns; now right|].
    rewrite filter_set_known, Hm; [reflexivity|]. apply Hns. now left. }
  apply H; [|reflexivity].
  intros n Hn. apply in_collection_In, in_map, Hn.
Qed.

Lemma init_same :
  same_on_collection nodes (init_layering nodes links)
                           (init_layering nodes (without_unknown_targets nodes links)).
Proof.
  assert (Hm : filter (known_entry nodes) (count_inDegree links (init_inDegree nodes)) =
               count_inDegree (without_unknown_targets nodes links) (init_inDegree nodes)).
  { rewrite count_inDegree_filter, init_inDegree_known. reflexivity. }
  unfold init_layering. constructor; simpl.
  - reflexivity.
  - reflexivity.
  - intros t Ht. rewrite <- Hm. symmetry. apply get0_filter. exact Ht.
  - rewrite <- Hm. apply start_queue_filter.
  - intros t Ht. apply get_None. intros Hin.
    apply init_nodeMap_keys, in_collection_In in Hin. congruence.
Qed.

(** C6, as amended.  The function returns on every input, and the depths it
    assigns are those it assigns once every link whose target is outside the
    node collection has been removed. *)
Theorem C6_unknown_targets_are_ignored :
  exists result,
    calculateNodeDepths nodes links = Some result /\
    calculateNodeDepths nodes (without_unknown_targets nodes links)
      = Some result.
Proof.
  destruct (calculateNodeDepths_total links nodes) as [result Hr].
  destruct (calculateNodeDepths_total (without_unknown_targets nodes links) nodes) as [result' Hr'].
  exists result. split; [exact Hr|]. rewrite Hr'. f_equal.
  destruct (calculateNodeDepths_state links nodes result Hr)
    as (r & Hb & ->).
  destruct (calculateNodeDepths_state (without_unknown_targets nodes links) nodes result' Hr')
    as (r' & Hb' & ->).
  rewrite (bfs_same _ _ _ _ _ r r' init_same Hb Hb'). reflexivity.
Qed.

End LayeringUnknownTargets.

(* ------------------------------------------------------------------ *)
(** ** The functions on concrete inputs *)

Section Examples.
#[local] Existing Instance decimal_runtime.

(** C1. [App] passes the identifier column ["id"], whose cell for the only row
    is ["r1"]; the link that comes back has no identifier. *)
Theorem C1_identifier_column_is_dropped :
  idColumn example_config = Some "id" /\
  column example_table "id" = [CStr "r1"] /\
  links (App_sankeyData (Some example_table) example_config) =
    [mkLink (LStr "A") (LStr "B") (of_Z 10) None] /\
  links (transformSigmaDataToSankey (Some example_table) (Some "src")
           (Some "tgt") (Some "val")) =
    [mkLink (LStr "A") (LStr "B") (of_Z 10) None].
Proof. repeat split. Qed.

(** Scenario A: aggregation, depths and validation. *)
Example scenario_A_depths :
  calculateNodeDepths scenario_A_nodes scenario_A_aggregated =
  Some [set_depth (node_named "A") 0; set_depth (node_named "B") 1;
        set_depth (node_named "C") 2].
Proof. reflexivity. Qed.

Example scenario_A_validation :
  validateSankeyData (Some scenario_A_nodes) (Some scenario_A_aggregated) =
  mkReport true [] [].
Proof. reflexivity. Qed.

(** Scenario B: the row is dropped and the validator reports two errors. *)
Example scenario_B_empty :
  transformSigmaDataToSankey (Some scenario_B_table) (Some "src") (Some "tgt")
    (Some "val") = mkChart [] [] /\
  validateSankeyData (Some []) (Some []) =
  mkReport false [msg_no_nodes; msg_no_links] [].
Proof. split; reflexivity. Qed.

(** Scenario C: both nodes of the cycle keep the depth 0. *)
Example scenario_C_depths :
  calculateNodeDepths scenario_C_nodes scenario_C_links =
  Some [set_depth (node_named "A") 0; set_depth (node_named "B") 0].
Proof. reflexivity. Qed.

Example scenario_A_aggregation :
  aggregateLinks scenario_A_links = scenario_A_aggregated.
Proof. reflexivity. Qed.

Example colliding_links_merge :
  aggregateLinks colliding_links = [example_link "a->b" "c" 3].
Proof. reflexivity. Qed.

(** C2, as written, fails: the links ["a->b" -> "c"] and ["a" -> "b->c"] have
    different end points and are merged into one edge. *)
Lemma C2_counterexample_colliding_keys :
  ~ aggregates_by_pair colliding_links (aggregateLinks colliding_links).
Proof.
  intros (_ & Hpairs & _).
  destruct (Hpairs ("a", "b->c")) as [_ H].
  destruct H as [H|[]]; [|discriminate H].
  right. left. reflexivity.
Qed.

Lemma C2_witness_scenario_A :
  Forall (fun link => includes_arrow (String_label (link_source link)) = false)
         scenario_A_links /\
  aggregates_by_pair scenario_A_links (aggregateLinks scenario_A_links).
Proof.
  assert (H : Forall
                (fun link =>
                   includes_arrow (String_label (link_source link)) = false)
                scenario_A_links)
    by (repeat constructor).
  split; [exact H|]. exact (C2_aggregateLinks_by_pair scenario_A_links H).
Defined.

Example dangling_depths :
  calculateNodeDepths dangling_nodes dangling_links =
  Some [set_depth (node_named "S") 0; set_depth (node_named "A") 0].
Proof. reflexivity. Qed.

(** With every end point in the collection, a node that a zero-in-degree node
    enters directly stays at depth 0 when it is also on a cycle. *)
Example cycle_depths :
  calculateNodeDepths cycle_nodes cycle_links =
  Some [set_depth (node_named "S") 0; set_depth (node_named "A") 0;
        set_depth (node_named "B") 0].
Proof. reflexivity. Qed.

(** C3, as written, fails: [A] is entered from the zero-in-degree node [S]
    in a graph without any cycle, and both get depth 0, because a second link
    enters [A] from a label that names no node. *)
Lemma C3_counterexample_dangling_source :
  ~ layering_claim dangling_nodes dangling_links.
Proof.
  intros H.
  assert (Hreach : reachable_without_cycle dangling_nodes dangling_links "A").
  { exists "S", ["S"; "A"]. split; [|split; [|split; [|split]]].
    - split; [left; reflexivity|].
      intros l [<-|[<-|[]]]; discriminate.
    - reflexivity.
    - reflexivity.
    - split; [|exact I]. exists (example_link "S" "A" 1).
      split; [left; reflexivity|]. split; reflexivity.
    - repeat constructor; simpl; intuition discriminate. }
  pose proof (H (example_link "S" "A" 1) _ (or_introl eq_refl) Hreach
                dangling_depths) as Hr.
  destruct (Hr (set_depth (node_named "S") 0) (set_depth (node_named "A") 0))
    as (ds & dt & Es & Et & Hle); simpl; auto.
  simpl in Es, Et. injection Es as Es. injection Et as Et. lia.
Qed.

Lemma C3_witness_scenario_A :
  In (example_link "A" "B" 15) scenario_A_aggregated /\
  acyclic_ancestry scenario_A_nodes scenario_A_aggregated "B" /\
  exists result,
    calculateNodeDepths scenario_A_nodes scenario_A_aggregated = Some result /\
    (exists ns nt, In ns result /\ In nt result /\
                   node_name ns = "A" /\ node_name nt = "B") /\
    respects result (example_link "A" "B" 15).
Proof.
  assert (HA : grounded scenario_A_nodes scenario_A_aggregated "A").
  { constructor; [simpl; auto|].
    intros l [<-|[<-|[]]] E; discriminate E. }
  assert (HB : grounded scenario_A_nodes scenario_A_aggregated "B").
  { constructor; [simpl; auto|].
    intros l [<-|[<-|[]]] E; [exact HA|discriminate E]. }
  apply grounded_acyclic_ancestry in HB.
  split; [left; reflexivity|]. split; [exact HB|].
  exact (C3_layering_order scenario_A_aggregated scenario_A_nodes
           (example_link "A" "B" 15) (or_introl eq_refl) HB).
Defined.



Lemma C5_witness_scenario_A :
  isValid (validateSankeyData (Some scenario_A_nodes)
                              (Some scenario_A_aggregated)) = true /\
  forall m,
    In m (warnings (validateSankeyData (Some scenario_A_nodes)
                                       (Some scenario_A_aggregated))) <->
    (orphanedNodes scenario_A_nodes scenario_A_aggregated <> [] /\
     m = msg_orphaned (orphanedNodes scenario_A_nodes scenario_A_aggregated)) \/
    (selfLinks scenario_A_aggregated <> [] /\
     m = msg_self (selfLinks scenario_A_aggregated)).
Proof.
  destruct (C5_validator_soundness (Some scenario_A_nodes)
              (Some scenario_A_aggregated)) as (_ & _ & H).
  split; [reflexivity|].
  destruct (H scenario_A_nodes scenario_A_aggregated eq_refl eq_refl)
    as (Hw & _).
  exact Hw.
Defined.

Example blocked_depths :
  calculateNodeDepths blocked_nodes blocked_links =
  Some [set_depth (node_named "B") 0; set_depth (node_named "C") 0].
Proof. reflexivity. Qed.

Example unblocked_depths :
  calculateNodeDepths blocked_nodes (without_dangling blocked_nodes blocked_links)
  = Some [set_depth (node_named "B") 0; set_depth (node_named "C") 1].
Proof. reflexivity. Qed.

(** C6, as written, fails: the link from [X], which names no node, into [B]
    keeps [B] off the queue, so [C] stays at depth 0; without that link [C]
    gets depth 1. *)
Lemma C6_counterexample_dangling_source :
  calculateNodeDepths blocked_nodes blocked_links <>
  calculateNodeDepths blocked_nodes
    (without_dangling blocked_nodes blocked_links).
Proof.
  rewrite blocked_depths, unblocked_depths. discriminate.
Qed.

Lemma C8_witness_ragged_table :
  (exists data sc tc vc,
      Some ragged_table = Some data /\ Some "src" = Some sc /\
      Some "tgt" = Some tc /\ Some "val" = Some vc /\
      ~ (List.length (column data sc) = List.length (column data tc) /\
         List.length (column data sc) = List.length (column data vc))) /\
  transformSigmaDataToSankey (Some ragged_table) (Some "src") (Some "tgt")
    (Some "val") = mkChart [] [].
Proof.
  assert (H : exists data sc tc vc,
             Some ragged_table = Some data /\ Some "src" = Some sc /\
             Some "tgt" = Some tc /\ Some "val" = Some vc /\
             ~ (List.length (column data sc) = List.length (column data tc) /\
                List.length (column data sc) = List.length (column data vc))).
  { exists ragged_table, "src", "tgt", "val". repeat split.
    intros [E _]. discriminate E. }
  split; [exact H|].
  apply C8_shape_errors_give_empty_graph. do 4 right. exact H.
Defined.

Lemma C10_witness_scenario_A :
  NoDup (map node_name scenario_A_nodes) /\
  exists result,
    calculateNodeDepths scenario_A_nodes scenario_A_aggregated = Some result /\
    Forall2 (fun node out =>
               node_name out = node_name node /\
               node_id out = node_id node /\
               node_value out = node_value node)
            scenario_A_nodes result.
Proof.
  assert (H : NoDup (map node_name scenario_A_nodes)).
  { repeat constructor; simpl; intuition discriminate. }
  split; [exact H|].
  exact (C10_only_depth_changes scenario_A_aggregated scenario_A_nodes H).
Defined.

End Examples.

(* ------------------------------------------------------------------ *)
(** ** Further properties of ingestion and aggregation *)

Section MoreIngestion.
Context {rt : JSRuntime}.
Import JsMap JsMapFacts.

Lemma fold_add_NoDup (xs : list string) (s : JsSet.t) :
  NoDup s -> NoDup (fold_left JsSet.add xs s).
Proof.
  revert s. induction xs as [|x xs IH]; intros s Hs; simpl; [exact Hs|].
  apply IH. unfold JsSet.add. destruct (JsSet.has s x) eqn:E; [exact Hs|].
  apply NoDup_app; [exact Hs|repeat constructor; simpl; tauto|].
  intros a Ha [<-|[]]. apply JsSetFacts.has_false in E. exact (E Ha).
Qed.

Lemma In_row_names (S T V : list cell) (i : nat) (x : string) :
  In x (row_names S T V i) <->
  exists l, In l (row_links S T V i) /\ (sourceName l = x \/ targetName l = x).
Proof.
  unfold row_names, row_links. destruct (row_dropped S T V i); simpl.
  - split; [tauto|]. intros (l & [] & _).
  - split.
    + intros [<-|[<-|[]]]; eexists; split; try (left; reflexivity); auto.
    + intros (l & [<-|[]] & [<-|<-]); auto.
Qed.

Lemma transform_graph_closed (sigmaData : option SigmaData)
    (sourceColumn targetColumn valueColumn : option string) :
  let result :=
    transformSigmaDataToSankey sigmaData sourceColumn targetColumn valueColumn in
  NoDup (map node_name (nodes result)) /\
  (forall l, In l (links result) ->
     In (sourceName l) (map node_name (nodes result)) /\
     In (targetName l) (map node_name (nodes result))) /\
  (forall node, In node (nodes result) ->
     exists l, In l (links result) /\
               (sourceName l = node_name node \/ targetName l = node_name node)).
Proof.
  intros result. subst result.
  destruct (transform_cases sigmaData sourceColumn targetColumn valueColumn)
    as [->|(data & sc & tc & vc & -> & -> & -> & -> & Hs & Ht & Hv & Hst & Hsv)].
  { simpl. split; [constructor|]. split; [intros l []|intros n []]. }
  rewrite (transform_rows data sc tc vc Hs Ht Hv Hst Hsv). simpl.
  set (S := column data sc). set (T := column data tc).
  set (V := column data vc). set (rows := seq 0 (List.length S)).
  rewrite map_map. simpl. rewrite map_id.
  assert (Hin : forall x,
            In x (JsSet.of_list (flat_map (row_names S T V) rows)) <->
            exists l, In l (flat_map (row_links S T V) rows) /\
                      (sourceName l = x \/ targetName l = x)).
  { intros x. unfold JsSet.of_list. rewrite In_fold_add. simpl.
    rewrite in_flat_map. split.
    - intros [[]|(i & Hi & Hx)]. apply In_row_names in Hx.
      destruct Hx as (l & Hl & Hx). exists l. split; [|exact Hx].
      apply in_flat_map. eauto.
    - intros (l & Hl & Hx). right. apply in_flat_map in Hl.
      destruct Hl as (i & Hi & Hl). exists i. split; [exact Hi|].
      apply In_row_names. eauto. }
  split; [apply fold_add_NoDup; constructor|]. split.
  - intros l Hl. split; apply Hin; eauto.
  - intros node Hn. apply in_map_iff in Hn. destruct Hn as (x & <- & Hx).
    apply Hin in Hx. exact Hx.
Qed.

(** X1. The graph that ingestion returns is closed: the node names are
    pairwise distinct, both end points of every link are node names, and
    every node is an end point of some link. *)
Theorem X1_transform_graph_is_closed (sigmaData : option SigmaData)
    (sourceColumn targetColumn valueColumn : option string) :
  let result :=
    transformSigmaDataToSankey sigmaData sourceColumn targetColumn valueColumn in
  NoDup (map node_name (nodes result)) /\
  (forall l, In l (links result) ->
     In (sourceName l) (map node_name (nodes result)) /\
     In (targetName l) (map node_name (nodes result))) /\
  (forall node, In node (nodes result) ->
     exists l, In l (links result) /\
               (sourceName l = node_name node \/ targetName l = node_name node)).
Proof.
  exact (transform_graph_closed sigmaData sourceColumn targetColumn valueColumn).
Qed.

End MoreIngestion.

Section MoreAggregation.
Context {rt : JSRuntime}.
Import JsMap JsMapFacts.

Lemma aggregate_step_keys (m : JsMap.t SankeyLink) (link : SankeyLink) :
  keys (aggregate_step m link) = JsSet.add (keys m) (link_key link).
Proof.
  unfold aggregate_step, JsSet.add.
  destruct (get m (link_key link)) as [acc|] eqn:E.
  - rewrite (keys_set_present _ _ _ _ E).
    apply get_Some_key in E. apply JsSetFacts.has_In in E. rewrite E.
    reflexivity.
  - rewrite (set_absent _ _ _ E). unfold keys. rewrite map_app. simpl.
    apply get_None in E. apply JsSetFacts.has_false in E. unfold keys in E.
    rewrite E. reflexivity.
Qed.

Lemma aggregate_fold_keys (ls : list SankeyLink) (m : JsMap.t SankeyLink) :
  keys (fold_left aggregate_step ls m) =
  fold_left JsSet.add (map link_key ls) (keys m).
Proof.
  revert m. induction ls as [|l ls IH]; intros m; simpl; [reflexivity|].
  rewrite IH, aggregate_step_keys. reflexivity.
Qed.

(** X2. The output has one edge per distinct key of the input, in the order
    in which the keys first occur in the input. *)
Theorem X2_aggregateLinks_first_occurrence_order (ls : list SankeyLink) :
  map link_key (aggregateLinks ls) = JsSet.of_list (map link_key ls).
Proof.
  rewrite aggregateLinks_keys, aggregate_fold_keys. reflexivity.
Qed.

(** X3. When edges are merged the first one wins: an output edge has the
    source, the target and the identifier of the first input edge with its
    key, and the values of all input edges with its key, added in input
    order. *)
Theorem X3_aggregateLinks_first_edge_wins (ls : list SankeyLink)
    (o : SankeyLink) :
  In o (aggregateLinks ls) ->
  exists first rest,
    filter (fun l => link_key l =? link_key o) ls = first :: rest /\
    link_source o = link_source first /\
    link_target o = link_target first /\
    link_id o = link_id first /\
    link_value o = fold_left js_add (map link_value rest) (link_value first).
Proof.
  intros Ho. apply aggregateLinks_merged in Ho. unfold merged in Ho.
  destruct (filter _ ls) as [|first rest]; [discriminate|].
  injection Ho as <-. exists first, rest. simpl. auto.
Qed.

(** X4. Edges whose keys are pairwise distinct pass through aggregation
    unchanged. *)
Theorem X4_aggregateLinks_distinct_keys (ls : list SankeyLink) :
  NoDup (map link_key ls) -> aggregateLinks ls = ls.
Proof.
  intros Hnd. unfold aggregateLinks.
  rewrite aggregate_fold_distinct by exact Hnd.
  unfold values. simpl. rewrite map_map. simpl. apply map_id.
Qed.

End MoreAggregation.

(* ------------------------------------------------------------------ *)
(** ** The pipeline of [App]: ingestion, aggregation, validation *)

Section Pipeline.
Context {rt : JSRuntime}.
Import JsMap JsMapFacts.

Lemma transform_links_well_formed (sigmaData : option SigmaData)
    (sourceColumn targetColumn valueColumn : option string) :
  Forall well_formed_link
    (links (transformSigmaDataToSankey sigmaData sourceColumn targetColumn
              valueColumn)).
Proof.
  destruct (transform_cases sigmaData sourceColumn targetColumn valueColumn)
    as [->|(data & sc & tc & vc & -> & -> & -> & -> & Hs & Ht & Hv & Hst & Hsv)].
  - constructor.
  - rewrite (transform_rows data sc tc vc Hs Ht Hv Hst Hsv). simpl.
    apply Forall_flat_map, Forall_forall. intros i _.
    apply row_links_well_formed.
Qed.

Lemma positive_sum (vs : list number) (v : number) :
  positive v -> Forall positive vs -> positive (fold_left js_add vs v).
Proof.
  revert v. induction vs as [|w vs IH]; intros v Hv Hvs; simpl; [exact Hv|].
  inversion Hvs as [|? ? Hw Hrest]; subst. apply IH; [|exact Hrest].
  destruct Hv as (q & -> & Hq), Hw as (q' & -> & Hq'). simpl.
  exists (q + q')%Q. split; [reflexivity|].
  apply Qlt_le_trans with (0 + q')%Q.
  - rewrite Qplus_0_l. exact Hq'.
  - apply Qplus_le_l. apply Qlt_le_weak. exact Hq.
Qed.

(** What aggregation keeps of a property of every input edge. *)
Lemma aggregateLinks_inherits (ls : list SankeyLink) (o : SankeyLink) :
  In o (aggregateLinks ls) ->
  exists first,
    In first ls /\ link_source o = link_source first /\
    link_target o = link_target first /\
    (Forall (fun l => positive (link_value l)) ls -> positive (link_value o)).
Proof.
  intros Ho. apply aggregateLinks_merged in Ho. unfold merged in Ho.
  destruct (filter _ ls) as [|first rest] eqn:E; [discriminate|].
  injection Ho as <-. exists first. simpl.
  assert (Hsub : forall l, In l (first :: rest) -> In l ls).
  { intros l Hl. rewrite <- E in Hl. apply filter_In in Hl. tauto. }
  repeat split; auto.
  - apply Hsub. now left.
  - intros Hpos. rewrite Forall_forall in Hpos. apply positive_sum.
    + apply Hpos, Hsub. now left.
    + apply Forall_map, Forall_forall. intros l Hl.
      apply Hpos, Hsub. now right.
Qed.

Lemma aggregateLinks_nil (ls : list SankeyLink) :
  aggregateLinks ls = [] <-> ls = [].
Proof.
  split; [|intros ->; reflexivity].
  destruct ls as [|l ls]; [reflexivity|]. intros E. exfalso.
  destruct (merged_In (l :: ls) l (or_introl eq_refl)) as (o & _ & Ho).
  rewrite E in Ho. exact Ho.
Qed.

Lemma App_sankeyData_cases (sigmaData : option SigmaData)
    (config : SigmaConfig) :
  App_sankeyData sigmaData config = empty_graph \/
  exists raw,
    raw = transformSigmaDataToSankey sigmaData (sourceColumn config)
            (targetColumn config) (valueColumn config) /\
    App_sankeyData sigmaData config
      = mkChart (nodes raw) (aggregateLinks (links raw)).
Proof.
  unfold App_sankeyData. destruct sigmaData as [data|]; [|left; reflexivity].
  destruct (_ || _); [left; reflexivity|]. right. eauto.
Qed.

Lemma filter_nil_iff {A : Type} (f : A -> bool) (xs : list A) :
  filter f xs = [] <-> forall x, In x xs -> f x = false.
Proof.
  induction xs as [|a xs IH]; simpl; [split; [intros _ x []|reflexivity]|].
  destruct (f a) eqn:E.
  - split; [discriminate|]. intros H. rewrite (H a) in E by now left.
    discriminate.
  - rewrite IH. split.
    + intros H x [<-|Hx]; auto.
    + intros H x Hx. apply H. now right.
Qed.

(** The graph [App] renders, and what the validator finds in it. *)
Lemma pipeline_graph (sigmaData : option SigmaData) (config : SigmaConfig) :
  let graph := App_sankeyData sigmaData config in
  invalidLinks (nodes graph) (links graph) = [] /\
  negativeValueLinks (links graph) = [] /\
  (nodes graph = [] <-> links graph = []).
Proof.
  intros graph. subst graph.
  destruct (App_sankeyData_cases sigmaData config) as [->|(raw & Hraw & ->)].
  { simpl. repeat split. }
  simpl.
  pose proof (transform_graph_closed sigmaData (sourceColumn config)
                (targetColumn config) (valueColumn config)) as Hclosed.
  pose proof (transform_links_well_formed sigmaData (sourceColumn config)
                (targetColumn config) (valueColumn config)) as Hwf.
  simpl in Hclosed. rewrite <- Hraw in Hclosed, Hwf.
  destruct Hclosed as (_ & Hends & Hnodes).
  assert (Hpos : Forall (fun l => positive (link_value l)) (links raw)).
  { eapply Forall_impl; [|exact Hwf].
    intros l (s & t & q & _ & _ & Hv & _ & _ & Hq). exists q. auto. }
  split; [|split].
  - apply filter_nil_iff. intros o Ho.
    destruct (aggregateLinks_inherits _ _ Ho) as (first & Hin & Es & Et & _).
    destruct (Hends first Hin) as [H1 H2].
    unfold sourceName, targetName in H1, H2. rewrite <- Es in H1.
    rewrite <- Et in H2.
    apply has_nodeNames in H1, H2. rewrite H1, H2. reflexivity.
  - apply filter_nil_iff. intros o Ho.
    destruct (aggregateLinks_inherits _ _ Ho) as (first & _ & _ & _ & Hv).
    destruct (Hv Hpos) as (q & -> & Hq). simpl.
    destruct (Qle_bool q 0) eqn:E; [|reflexivity].
    apply Qle_bool_iff in E. exfalso. exact (Qlt_not_le _ _ Hq E).
  - rewrite aggregateLinks_nil. split.
    + intros Hn. destruct (links raw) as [|l ls]; [reflexivity|]. exfalso.
      destruct (Hends l (or_introl eq_refl)) as [H _].
      rewrite Hn in H. exact H.
    + intros Hl. destruct (nodes raw) as [|n ns]; [reflexivity|]. exfalso.
      destruct (Hnodes n (or_introl eq_refl)) as (l & H & _).
      rewrite Hl in H. exact H.
Qed.

Lemma validate_pipeline (ns : list SankeyNode) (ls : list SankeyLink) :
  invalidLinks ns ls = [] -> negativeValueLinks ls = [] ->
  (ns = [] <-> ls = []) ->
  (ls = [] /\
   isValid (validateSankeyData (Some ns) (Some ls)) = false /\
   errors (validateSankeyData (Some ns) (Some ls))
     = [msg_no_nodes; msg_no_links]) \/
  (ls <> [] /\
   isValid (validateSankeyData (Some ns) (Some ls)) = true /\
   errors (validateSankeyData (Some ns) (Some ls)) = []).
Proof.
  intros Hi Hn Hiff. unfold validateSankeyData. rewrite Hi, Hn.
  destruct ls as [|l ls].
  - assert (Hns : ns = []) by (apply Hiff; reflexivity). subst ns.
    left. repeat split.
  - right. destruct ns as [|n ns].
    + destruct Hiff as [Hiff _]. discriminate (Hiff eq_refl).
    + split; [discriminate|]. split; reflexivity.
Qed.

(** X6. Whatever the table and the selectors, the graph that [App] builds
    never has a link to a missing node or a link whose value is at most 0.
    The validator either accepts it, or reports exactly the two emptiness
    errors, which happens exactly when no row survives. *)
Theorem X6_pipeline_graph_validates (sigmaData : option SigmaData)
    (config : SigmaConfig) :
  let graph := App_sankeyData sigmaData config in
  let report := validateSankeyData (Some (nodes graph)) (Some (links graph)) in
  invalidLinks (nodes graph) (links graph) = [] /\
  negativeValueLinks (links graph) = [] /\
  ((links graph = [] /\ isValid report = false /\
    errors report = [msg_no_nodes; msg_no_links]) \/
   (links graph <> [] /\ isValid report = true /\ errors report = [])).
Proof.
  intros graph report.
  destruct (pipeline_graph sigmaData config) as (Hi & Hn & Hiff).
  fold graph in Hi, Hn, Hiff.
  split; [exact Hi|]. split; [exact Hn|].
  exact (validate_pipeline _ _ Hi Hn Hiff).
Qed.

(** X7. The report [App] shows.  It is invalid exactly when the three
    selectors are set, no row survives, and the data object is missing or the
    source column has at least one row; it then holds the two emptiness
    errors.  In every other case it is valid and has no errors. *)
Theorem X7_App_dataValidation (sigmaData : option SigmaData)
    (config : SigmaConfig) :
  let graph := App_sankeyData sigmaData config in
  let report := App_dataValidation sigmaData config graph in
  (isValid report = false <->
   selector_missing (sourceColumn config) = false /\
   selector_missing (targetColumn config) = false /\
   selector_missing (valueColumn config) = false /\
   links graph = [] /\
   (sigmaData = None \/
    exists data sc, sigmaData = Some data /\ sourceColumn config = Some sc /\
                    column data sc <> [])) /\
  (isValid report = false -> errors report = [msg_no_nodes; msg_no_links]) /\
  (isValid report = true -> errors report = []).
Proof.
  intros graph report.
  destruct (pipeline_graph sigmaData config) as (Hi & Hn & Hiff).
  fold graph in Hi, Hn, Hiff.
  pose proof (validate_pipeline _ _ Hi Hn Hiff) as Hrun.
  subst report. unfold App_dataValidation.
  destruct (selector_missing (sourceColumn config)) eqn:E1; cbn [orb].
  { repeat split; try discriminate. intros (H & _). discriminate. }
  destruct (selector_missing (targetColumn config)) eqn:E2; cbn [orb].
  { repeat split; try discriminate. intros (_ & H & _). discriminate. }
  destruct (selector_missing (valueColumn config)) eqn:E3; cbn [orb].
  { repeat split; try discriminate. intros (_ & _ & H & _). discriminate. }
  destruct (sourceColumn config) as [sc|] eqn:Esc; [|discriminate].
  destruct sigmaData as [data|].
  - destruct Hrun as [(Hl & Hv & He)|(Hl & Hv & He)].
    + (* no row survives *)
      assert (Hnodes : nodes graph = []) by (apply Hiff, Hl).
      rewrite Hnodes, Hl in *. cbn [List.length Nat.eqb andb].
      destruct (column data sc) as [|c cs] eqn:Ec;
        cbn [List.length Nat.ltb Nat.leb].
      * split; [|split; [discriminate|reflexivity]].
        split; [discriminate|].
        intros (_ & _ & _ & _ & [H|(d & s & Hd & Hs & Hne)]);
          [discriminate|].
        injection Hd as <-. injection Hs as <-. congruence.
      * rewrite Hv, He. split; [|split; [reflexivity|discriminate]].
        split; [|reflexivity]. intros _. repeat split; auto.
        right. exists data, sc. repeat split. rewrite Ec. discriminate.
    + assert (Hb : (List.length (nodes graph) =? 0)%nat
                   && (List.length (links graph) =? 0)%nat = false).
      { destruct (links graph); [congruence|]. simpl. apply andb_false_r. }
      rewrite Hb, Hv, He. split; [|split; [discriminate|reflexivity]].
      split; [discriminate|]. intros (_ & _ & _ & H & _). contradiction.
  - destruct Hrun as [(Hl & Hv & He)|(Hl & Hv & He)]; rewrite Hv, He.
    + split; [|split; [reflexivity|discriminate]].
      split; [|reflexivity]. intros _. repeat split; auto.
    + split; [|split; [discriminate|reflexivity]].
      split; [discriminate|]. intros (_ & _ & _ & H & _). contradiction.
Qed.

End Pipeline.

(* ------------------------------------------------------------------ *)
(** ** Node layering: where the depths come from *)

Section LayeringTight.
Context {rt : JSRuntime}.
Variable links : list SankeyLink.
Import JsMap JsMapFacts.

Lemma relax_fold_pushed (name : string) (vis : JsSet.t)
    (ls : list SankeyLink) (acc : JsMap.t Z * list string) :
  exists pushed,
    snd (fold_left (relax name vis) ls acc) = snd acc ++ pushed /\
    forall t, In t pushed ->
      exists l, In l ls /\ sourceName l = name /\ targetName l = t.
Proof.
  revert acc. induction ls as [|l ls IH]; intros acc; simpl.
  - exists []. rewrite app_nil_r. split; [reflexivity|]. intros t [].
  - destruct (IH (relax name vis acc l)) as (pushed & Hq & Hp).
    assert (Hlater : forall t, In t pushed ->
              exists l', (l = l' \/ In l' ls) /\
                         sourceName l' = name /\ targetName l' = t).
    { intros t Ht. destruct (Hp t Ht) as (l' & Hl' & H). exists l'. auto. }
    unfold relax in Hq |- *.
    destruct (sourceName l =? name) eqn:Es; simpl in *;
      [|exists pushed; auto].
    apply String.eqb_eq in Es.
    destruct (_ && _); simpl in *; [|exists pushed; auto].
    exists (targetName l :: pushed). split.
    + rewrite Hq, <- app_assoc. reflexivity.
    + intros t [<-|Ht]; [exists l; auto|auto].
Qed.

Lemma of_Z_inj (a b : Z) : of_Z a = of_Z b -> a = b.
Proof. unfold of_Z, inject_Z. intros H. injection H. auto. Qed.

Lemma depth_is_unique (m : JsMap.t SankeyNode) (x : string) (a b : Z) :
  depth_is m x a -> depth_is m x b -> a = b.
Proof.
  intros (n & Hn & Ha) (n' & Hn' & Hb). rewrite Hn in Hn'.
  injection Hn' as <-. rewrite Ha in Hb. injection Hb as Hb. exact Hb.
Qed.

Lemma process_node_tight (d : Z) (n : string) (cur nxt : list string)
    (m : JsMap.t SankeyNode) (vis : JsSet.t) (deg : JsMap.t Z) :
  tight links d (n :: cur) nxt (mkLayering m vis deg (n :: cur ++ nxt)) ->
  exists pushed,
    tight links d cur (nxt ++ pushed)
      (process_node links d (mkLayering m vis deg (cur ++ nxt)) n).
Proof.
  intros [Hq Hd Hvis Hcur Hnxt Hun]. simpl in *.
  unfold process_node. simpl.
  destruct (get m n) as [node|] eqn:Hg.
  2: { exists []. rewrite app_nil_r. constructor; simpl; auto. }
  destruct (JsSet.has vis n) eqn:Hv.
  { exists []. rewrite app_nil_r. constructor; simpl; auto. }
  destruct (relax_fold_pushed n (JsSet.add vis n) links (deg, cur ++ nxt))
    as (pushed & Hpq & Hlink).
  destruct (fold_left (relax n (JsSet.add vis n)) links (deg, cur ++ nxt))
    as [deg' q']. simpl in *.
  exists pushed.
  assert (Hn : ~ In n vis) by (apply JsSetFacts.has_false; exact Hv).
  assert (Hkeep : forall x dv,
            In x vis -> depth_is m x dv ->
            depth_is (set m n (set_depth node d)) x dv).
  { intros x dv Hx (nd & Hgx & Hdx). exists nd.
    rewrite get_set_other; [auto|]. intros ->. contradiction. }
  assert (Hnew : depth_is (set m n (set_depth node d)) n d).
  { exists (set_depth node d). rewrite get_set_same. auto. }
  assert (Hadd : forall x, In x vis -> In x (JsSet.add vis n)).
  { intros x Hx. apply JsSetFacts.In_add. now left. }
  constructor; simpl.
  - rewrite Hpq, app_assoc. reflexivity.
  - exact Hd.
  - intros v Hin. apply JsSetFacts.In_add in Hin. destruct Hin as [Hin| ->].
    + destruct (Hvis v Hin) as (dv & Hdv & Hle & Hw). exists dv.
      split; [auto|]. split; [exact Hle|]. intros Hpos.
      destruct (Hw Hpos) as (l & Hl & Ht & Hs & Hds). exists l. auto 6.
    + exists d. split; [exact Hnew|]. split; [lia|]. intros Hpos.
      destruct (Hcur n (or_introl eq_refl) Hpos) as (l & Hl & Ht & Hs & Hds).
      exists l. auto 6.
  - intros q Hq' Hpos.
    destruct (Hcur q (or_intror Hq') Hpos) as (l & Hl & Ht & Hs & Hds).
    exists l. auto 6.
  - intros q Hq'. apply in_app_or in Hq'. destruct Hq' as [Hq'|Hq'].
    + destruct (Hnxt q Hq') as (l & Hl & Ht & Hs & Hds). exists l. auto 6.
    + destruct (Hlink q Hq') as (l & Hl & Hs & Ht).
      exists l. rewrite Hs. repeat split; auto.
      apply JsSetFacts.In_add. now right.
  - intros x nd Hgx Hnv.
    assert (Hxn : x <> n).
    { intros ->. apply Hnv, JsSetFacts.In_add. now right. }
    rewrite get_set_other in Hgx by congruence.
    apply (Hun x nd Hgx). intros H. apply Hnv, Hadd, H.
Qed.

Lemma process_level_tight (d : Z) (cur : list string) :
  forall nxt st,
    tight links d cur nxt st ->
    exists nxt', tight links d [] nxt'
                   (process_level links d (List.length cur) st).
Proof.
  induction cur as [|n cur IH]; intros nxt st H; simpl.
  - exists nxt. exact H.
  - destruct st as [m vis deg q]. pose proof (tight_queue _ _ _ _ _ H) as Hq.
    simpl in Hq. subst q. simpl.
    destruct (process_node_tight d n cur nxt m vis deg H) as (pushed & H').
    exact (IH _ _ H').
Qed.

Lemma tight_next_wave (d : Z) (nxt : list string) (st : layering) :
  tight links d [] nxt st -> tight links (d + 1) (queue st) [] st.
Proof.
  intros [Hq Hd Hvis Hcur Hnxt Hun]. simpl in Hq. rewrite Hq.
  constructor; auto.
  - rewrite app_nil_r. exact Hq.
  - lia.
  - intros v Hv. destruct (Hvis v Hv) as (dv & Hdv & Hle & Hw). exists dv.
    split; [exact Hdv|]. split; [lia|exact Hw].
  - intros q Hq' _. destruct (Hnxt q Hq') as (l & Hl & Ht & Hs & Hds).
    exists l. replace (d + 1 - 1)%Z with d by lia. auto.
  - intros q [].
Qed.

Lemma bfs_tight (fuel : nat) :
  forall d st st',
    tight links d (queue st) [] st ->
    bfs links fuel d st = Some st' ->
    exists d', tight links d' [] [] st'.
Proof.
  induction fuel as [|fuel IH]; intros d st st' H; simpl.
  - destruct (queue st) eqn:Hq; [|discriminate].
    intros E. injection E as <-. exists d. exact H.
  - destruct (queue st) as [|n rest] eqn:Hq.
    + intros E. injection E as <-. exists d. exact H.
    + rewrite <- Hq.
      destruct (process_level_tight d (queue st) [] st) as (nxt' & H').
      { rewrite Hq. exact H. }
      apply IH. apply (tight_next_wave _ nxt'). exact H'.
Qed.

Lemma init_tight (nodes : list SankeyNode) :
  tight links 0 (queue (init_layering nodes links)) []
        (init_layering nodes links).
Proof.
  unfold init_layering. constructor; simpl.
  - rewrite app_nil_r. reflexivity.
  - lia.
  - intros v [].
  - intros q _ H. lia.
  - intros q [].
  - intros x node Hg _. apply get_In in Hg.
    pose proof (init_nodeMap_Forall
                  (fun kv => node_depth (snd kv) = Some (of_Z 0)) nodes
                  (fun _ => eq_refl)) as H.
    rewrite Forall_forall in H. exact (H _ Hg).
Qed.

(** A node of the result with a depth above 0 has a predecessor one level
    up. *)
Lemma depth_has_predecessor (nodes result : list SankeyNode)
    (nt : SankeyNode) (d : Z) :
  calculateNodeDepths nodes links = Some result ->
  In nt result -> node_depth nt = Some (of_Z d) -> (0 < d)%Z ->
  exists l ns,
    In l links /\ In ns result /\
    targetName l = node_name nt /\ node_name ns = sourceName l /\
    node_depth ns = Some (of_Z (d - 1)).
Proof.
  intros Hr Hnt Hd Hpos.
  destruct (calculateNodeDepths_state links nodes result Hr)
    as (st' & Hbfs & ->).
  destruct (bfs_named links nodes st' Hbfs) as (Hk & Hnd & Hn).
  destruct (bfs_tight _ 0 (init_layering nodes links) st'
              (init_tight nodes) Hbfs) as (d' & Ht).
  unfold values in Hnt. apply in_map_iff in Hnt.
  destruct Hnt as ([k v] & Ev & Hin). simpl in Ev. subst v.
  assert (Hname : node_name nt = k).
  { rewrite Forall_forall in Hn. apply (Hn _ Hin). }
  pose proof (In_get _ _ _ Hnd Hin) as Hg.
  destruct (JsSet.has (visited st') k) eqn:Hv.
  - apply JsSetFacts.has_In in Hv.
    destruct (tight_visited _ _ _ _ _ Ht k Hv) as (dv & Hdv & _ & Hw).
    assert (Edv : dv = d).
    { apply (depth_is_unique (nodeMap st') k); [exact Hdv|].
      exists nt. auto. }
    subst dv. destruct (Hw Hpos) as (l & Hl & Et & Hs & (ns & Hgs & Hds)).
    exists l, ns. repeat split; auto.
    + unfold values. apply in_map_iff. exists (sourceName l, ns).
      split; [reflexivity|]. apply get_In, Hgs.
    + congruence.
    + apply get_In in Hgs. rewrite Forall_forall in Hn. apply (Hn _ Hgs).
  - apply JsSetFacts.has_false in Hv.
    pose proof (tight_unvisited _ _ _ _ _ Ht k nt Hg Hv) as H0.
    rewrite Hd in H0. injection H0 as H0. lia.
Qed.

(** X8. A node with a depth above 0 owes it to a link: some link enters it
    from a node whose depth is exactly one less.  Depths are therefore never
    skipped along the links that assign them. *)
Theorem X8_depth_comes_from_a_link (nodes : list SankeyNode) :
  exists result,
    calculateNodeDepths nodes links = Some result /\
    forall nt d,
      In nt result -> node_depth nt = Some (of_Z d) -> (0 < d)%Z ->
      exists l ns,
        In l links /\ In ns result /\
        targetName l = node_name nt /\ node_name ns = sourceName l /\
        node_depth ns = Some (of_Z (d - 1)).
Proof.
  destruct (calculateNodeDepths_total links nodes) as [result Hr].
  exists result. split; [exact Hr|]. intros nt d.
  exact (depth_has_predecessor nodes result nt d Hr).
Qed.

Lemma result_has_depth (nodes result : list SankeyNode) (node : SankeyNode) :
  calculateNodeDepths nodes links = Some result -> In node result ->
  has_depth node.
Proof.
  intros Hr Hin.
  destruct (calculateNodeDepths_nodeMap links
              (fun m => Forall (fun kv => has_depth (snd kv)) m))
    with (nodes := nodes) (result := result) as (m & Hm & ->).
  - intros m k nd d Hd Hm Hg. apply Forall_set; [exact Hm|].
    exists d. auto.
  - apply init_nodeMap_Forall. intros nd. exists 0%Z. simpl.
    split; [reflexivity|lia].
  - exact Hr.
  - unfold values in Hin. apply in_map_iff in Hin.
    destruct Hin as (kv & <- & Hkv). rewrite Forall_forall in Hm.
    apply Hm, Hkv.
Qed.

(** X9. A node that no link enters gets depth 0. *)
Theorem X9_roots_have_depth_zero (nodes : list SankeyNode) :
  exists result,
    calculateNodeDepths nodes links = Some result /\
    forall node,
      In node result ->
      (forall l, In l links -> targetName l <> node_name node) ->
      node_depth node = Some (of_Z 0).
Proof.
  destruct (calculateNodeDepths_total links nodes) as [result Hr].
  exists result. split; [exact Hr|]. intros node Hin Hroot.
  destruct (result_has_depth nodes result node Hr Hin) as (d & Hd & Hle).
  destruct (Z.eq_dec d 0) as [->|Hne]; [exact Hd|]. exfalso.
  destruct (depth_has_predecessor nodes result node d Hr Hin Hd)
    as (l & _ & Hl & _ & Ht & _); [lia|].
  exact (Hroot l Hl Ht).
Qed.

(** *** The depths of the input nodes *)

Lemma init_layering_frame (nodes nodes' : list SankeyNode) :
  map node_frame nodes = map node_frame nodes' ->
  init_layering nodes links = init_layering nodes' links /\
  bfs_fuel nodes links = bfs_fuel nodes' links.
Proof.
  intros H.
  assert (Hlen : List.length nodes = List.length nodes').
  { rewrite <- (length_map node_frame nodes), H. apply length_map. }
  assert (Hm : map (fun node => (node_name node, set_depth node 0)) nodes =
               map (fun node => (node_name node, set_depth node 0)) nodes').
  { clear Hlen. revert nodes' H.
    induction nodes as [|n ns IH]; intros [|n' ns'] H; simpl in *;
      try discriminate; [reflexivity|].
    unfold node_frame in H at 1 3. injection H as E1 E2 E3 Hrest.
    rewrite (IH ns' Hrest). unfold set_depth. rewrite E1, E2, E3.
    reflexivity. }
  assert (Hd : init_inDegree nodes = init_inDegree nodes').
  { unfold init_inDegree. generalize (@empty Z). clear Hlen Hm. revert nodes' H.
    induction nodes as [|n ns IH]; intros [|n' ns'] H m0; simpl in *;
      try discriminate; [reflexivity|].
    unfold node_frame in H at 1 3. injection H as E1 E2 E3 Hrest.
    rewrite E2. apply IH. exact Hrest. }
  split.
  - unfold init_layering, init_nodeMap. rewrite Hm, Hd. reflexivity.
  - unfold bfs_fuel. rewrite Hlen. reflexivity.
Qed.

Lemma calculateNodeDepths_frame (nodes result : list SankeyNode) :
  NoDup (map node_name nodes) ->
  calculateNodeDepths nodes links = Some result ->
  map node_frame result = map node_frame nodes.
Proof.
  intros Hnd Hr.
  destruct (calculateNodeDepths_nodeMap links
              (fun m => map (fun kv => node_frame (snd kv)) m =
                        map node_frame nodes))
    with (nodes := nodes) (result := result) as (m & Hm & ->).
  - intros m k node d _ Hm Hg.
    rewrite (map_set_same _ m k node _ Hg); [exact Hm|reflexivity].
  - unfold init_nodeMap, of_list. rewrite of_list_distinct.
    + simpl. rewrite map_map. reflexivity.
    + simpl. rewrite map_map. exact Hnd.
  - exact Hr.
  - unfold values. rewrite map_map. exact Hm.
Qed.

(** X10. The depths the input nodes carry are ignored: two node lists that
    agree on every field but the depth get the same result. *)
Theorem X10_input_depths_are_ignored (nodes nodes' : list SankeyNode) :
  map node_frame nodes = map node_frame nodes' ->
  calculateNodeDepths nodes links = calculateNodeDepths nodes' links.
Proof.
  intros H. destruct (init_layering_frame nodes nodes' H) as [Hi Hf].
  unfold calculateNodeDepths. rewrite Hi, Hf. reflexivity.
Qed.

(** X11. With pairwise distinct names, layering the result again with the
    same links returns the same result. *)
Theorem X11_calculateNodeDepths_idempotent (nodes : list SankeyNode) :
  NoDup (map node_name nodes) ->
  exists result,
    calculateNodeDepths nodes links = Some result /\
    calculateNodeDepths result links = Some result.
Proof.
  intros Hnd. destruct (calculateNodeDepths_total links nodes) as [result Hr].
  exists result. split; [exact Hr|]. rewrite <- Hr.
  destruct (init_layering_frame result nodes
              (calculateNodeDepths_frame nodes result Hnd Hr)) as [Hi Hf].
  unfold calculateNodeDepths. rewrite Hi, Hf. reflexivity.
Qed.

(** *** A bound on the depths *)

Lemma length_init_nodeMap (nodes : list SankeyNode) :
  (List.length (init_nodeMap nodes) <= List.length nodes)%nat.
Proof.
  unfold init_nodeMap, of_list.
  assert (H : forall m : JsMap.t SankeyNode,
            (List.length
               (fold_left (fun m kv => set m (fst kv) (snd kv))
                  (map (fun node => (node_name node, set_depth node 0)) nodes)
                  m)
             <= List.length m + List.length nodes)%nat).
  { induction nodes as [|n ns IH]; intros m; simpl; [lia|].
    etransitivity; [apply IH|].
    pose proof (length_set m (node_name n) (set_depth n 0)). lia. }
  exact (H empty).
Qed.

Lemma length_result (nodes result : list SankeyNode) :
  calculateNodeDepths nodes links = Some result ->
  (List.length result <= List.length nodes)%nat.
Proof.
  intros Hr.
  destruct (calculateNodeDepths_state links nodes result Hr)
    as (st' & Hbfs & ->).
  destruct (bfs_named links nodes st' Hbfs) as (Hk & _ & _).
  apply (f_equal (@List.length string)) in Hk. unfold keys, values in *.
  rewrite !length_map in *. rewrite Hk. apply length_init_nodeMap.
Qed.

Lemma NoDup_map_of {A B : Type} (f : A -> B) (l : list A) :
  (forall a b, f a = f b -> a = b) -> NoDup l -> NoDup (map f l).
Proof.
  intros Hf. induction 1 as [|x l Hx Hl IH]; cbn [map]; constructor;
    [|exact IH].
  intros Hin. apply in_map_iff in Hin. destruct Hin as (y & E & Hy).
  apply Hf in E. subst y. exact (Hx Hy).
Qed.

(** A node at depth [n] ends a chain of returned nodes at the depths
    [0], ..., [n]. *)
Lemma depth_chain (nodes result : list SankeyNode) :
  calculateNodeDepths nodes links = Some result ->
  forall (n : nat) (nt : SankeyNode),
    In nt result -> node_depth nt = Some (of_Z (Z.of_nat n)) ->
    exists chain,
      incl chain result /\
      map node_depth chain
        = map (fun k => Some (of_Z (Z.of_nat k))) (seq 0 (S n)).
Proof.
  intros Hr. induction n as [|n IH]; intros nt Hin Hd.
  - exists [nt]. split; [|simpl; rewrite Hd; reflexivity].
    intros x [<-|[]]. exact Hin.
  - destruct (depth_has_predecessor nodes result nt (Z.of_nat (S n)) Hr Hin Hd)
      as (l & ns & _ & Hns & _ & _ & Hdn); [lia|].
    replace (Z.of_nat (S n) - 1)%Z with (Z.of_nat n) in Hdn by lia.
    destruct (IH ns Hns Hdn) as (chain & Hincl & Hmap).
    exists (chain ++ [nt]). split.
    + intros x Hx. apply in_app_or in Hx. destruct Hx as [Hx|[<-|[]]];
        [apply Hincl, Hx|exact Hin].
    + rewrite map_app, Hmap. rewrite (seq_S (S n) 0), map_app.
      cbn [map Nat.add]. rewrite Hd. reflexivity.
Qed.

Lemma depth_below_length (nodes result : list SankeyNode)
    (node : SankeyNode) (d : Z) :
  calculateNodeDepths nodes links = Some result ->
  In node result -> node_depth node = Some (of_Z d) ->
  (0 <= d < Z.of_nat (List.length result))%Z.
Proof.
  intros Hr Hin Hd.
  destruct (result_has_depth nodes result node Hr Hin) as (d' & Hd' & Hle).
  assert (Hdd : d' = d) by (apply of_Z_inj; congruence). subst d'.
  split; [exact Hle|].
  rewrite <- (Z2Nat.id d Hle) in Hd.
  destruct (depth_chain nodes result Hr (Z.to_nat d) node Hin Hd)
    as (chain & Hincl & Hmap).
  assert (Hnd : NoDup chain).
  { apply (NoDup_map_inv node_depth). rewrite Hmap.
    apply NoDup_map_of; [|apply seq_NoDup].
    intros a b E. assert (Hab : Z.of_nat a = Z.of_nat b)
      by (apply of_Z_inj; congruence). lia. }
  pose proof (NoDup_incl_length Hnd Hincl) as Hlen.
  apply (f_equal (@List.length (option number))) in Hmap.
  rewrite !length_map, length_seq in Hmap. lia.
Qed.

(** X16. The depths stay below the number of nodes: every returned node has
    a depth [d] with [0 <= d < n], where [n] is the number of returned nodes,
    which is at most the number of input nodes. *)
Theorem X16_depths_stay_below_the_node_count (nodes : list SankeyNode) :
  exists result,
    calculateNodeDepths nodes links = Some result /\
    (List.length result <= List.length nodes)%nat /\
    Forall (fun node =>
              exists d : Z,
                node_depth node = Some (of_Z d) /\
                (0 <= d < Z.of_nat (List.length result))%Z)
           result.
Proof.
  destruct (calculateNodeDepths_total links nodes) as [result Hr].
  exists result. split; [exact Hr|]. split; [exact (length_result _ _ Hr)|].
  apply Forall_forall. intros node Hin.
  destruct (result_has_depth nodes result node Hr Hin) as (d & Hd & _).
  exists d. split; [exact Hd|].
  exact (depth_below_length nodes result node d Hr Hin Hd).
Qed.

End LayeringTight.

(* ------------------------------------------------------------------ *)
(** ** Tooltip templates *)

Section Templates.

Lemma startsWith_app (p rest : string) : startsWith (p ++ rest) p = true.
Proof.
  induction p as [|a p IH]; simpl; [destruct rest; reflexivity|].
  rewrite Ascii.eqb_refl. exact IH.
Qed.

Lemma startsWith_split (s p : string) :
  startsWith s p = true -> s = (p ++ drop (String.length p) s)%string.
Proof.
  revert s. induction p as [|a p IH]; intros s H; simpl; [reflexivity|].
  destruct s as [|b s]; simpl in H; [discriminate|].
  apply andb_true_iff in H. destruct H as [Hab Hs].
  apply Ascii.eqb_eq in Hab. subst b. simpl. f_equal. apply IH, Hs.
Qed.

Lemma startsWith_prefix (s p q : string) :
  startsWith s (p ++ q) = true -> startsWith s p = true.
Proof.
  revert s. induction p as [|a p IH]; intros s H; simpl in *;
    [destruct s; reflexivity|].
  destruct s as [|b s]; [discriminate|]. simpl in *.
  apply andb_true_iff in H. destruct H as [Hab Hs]. rewrite Hab. simpl.
  apply IH, Hs.
Qed.

Lemma includes_prefix (s p q : string) :
  includes s p = false -> includes s (p ++ q) = false.
Proof.
  assert (Hs : forall s, startsWith s p = false ->
                         startsWith s (p ++ q) = false).
  { intros s0 H. destruct (startsWith s0 (p ++ q)) eqn:E; [|reflexivity].
    apply startsWith_prefix in E. congruence. }
  induction s as [|c s IH]; cbn [includes]; intros H;
    apply orb_false_iff in H; destruct H as [H1 H2];
    apply orb_false_iff; split; auto.
Qed.

Lemma includes_drop (k : nat) (s q : string) :
  includes s q = false -> includes (drop k s) q = false.
Proof.
  revert s. induction k as [|k IH]; intros s H; simpl; [exact H|].
  destruct s as [|c s]; [exact H|]. cbn [includes] in H.
  apply orb_false_iff in H. apply IH. tauto.
Qed.

(** Passing [k] characters and going on is going on behind them. *)
Lemma replace_from_drop (pat rep : string) (k : nat) (s : string) :
  replace_from pat rep k s = replaceAll pat rep (drop k s).
Proof.
  revert s. induction k as [|k IH]; intros s; simpl; [reflexivity|].
  destruct s as [|c s]; simpl; [reflexivity|]. apply IH.
Qed.

Lemma replaceAll_match (pat rep s : string) :
  pat <> EmptyString -> startsWith s pat = true ->
  replaceAll pat rep s
  = (rep ++ replaceAll pat rep (drop (String.length pat) s))%string.
Proof.
  intros Hne H. destruct s as [|c s].
  - destruct pat; [congruence|discriminate].
  - unfold replaceAll at 1. cbn [replace_from]. rewrite H.
    rewrite replace_from_drop. destruct pat as [|a pat]; [congruence|].
    simpl. rewrite Nat.sub_0_r. reflexivity.
Qed.

Lemma replaceAll_no_match (pat rep : string) (c : ascii) (s : string) :
  startsWith (String c s) pat = false ->
  replaceAll pat rep (String c s) = String c (replaceAll pat rep s).
Proof.
  intros H. unfold replaceAll. cbn [replace_from]. rewrite H. reflexivity.
Qed.

(** Without an occurrence of the pattern nothing is replaced. *)
Lemma replaceAll_absent (pat rep s : string) :
  includes s pat = false -> replaceAll pat rep s = s.
Proof.
  induction s as [|c s IH]; [reflexivity|].
  intros H. cbn [includes] in H. apply orb_false_iff in H.
  destruct H as [H1 H2].
  rewrite replaceAll_no_match by exact H1. rewrite IH by exact H2.
  reflexivity.
Qed.

Lemma length_drop (k : nat) (s : string) :
  (String.length (drop k s) <= String.length s - k)%nat.
Proof.
  revert s. induction k as [|k IH]; intros s; simpl; [lia|].
  destruct s as [|c s]; simpl; [lia|]. apply IH.
Qed.

(** *** Replacing one deprecated placeholder creates no other one *)

Lemma same_to_brace_replaceAll (pt r s : string) :
  startsWith r "{" = true ->
  same_to_brace s (replaceAll (String "{" pt) r s).
Proof.
  intros Hr. induction s as [|c s IH]; [exact I|].
  destruct (startsWith (String c s) (String "{" pt)) eqn:E.
  - rewrite replaceAll_match by (exact E || discriminate).
    destruct r as [|b r]; [discriminate|].
    cbn [startsWith] in Hr, E. cbn [append same_to_brace].
    apply andb_true_iff in E. destruct E as [E _].
    apply Ascii.eqb_eq in E. subst c.
    rewrite andb_true_r in Hr. apply Ascii.eqb_eq in Hr. subst b.
    split; [reflexivity|]. intros H. congruence.
  - rewrite replaceAll_no_match by exact E. cbn [same_to_brace]. auto.
Qed.

Lemma startsWith_same_to_brace (qt : string) :
  brace_free qt = true ->
  forall s o, same_to_brace s o -> startsWith o qt = startsWith s qt.
Proof.
  induction qt as [|d qt IH]; intros Hq s o H.
  - destruct s, o; reflexivity.
  - cbn [brace_free] in Hq. apply andb_true_iff in Hq.
    destruct Hq as [Hd Hq]. apply negb_true_iff in Hd.
    destruct s as [|c s], o as [|c' o]; cbn [same_to_brace] in H;
      try contradiction; [reflexivity|].
    destruct H as [<- H]. cbn [startsWith].
    destruct (Ascii.eqb_spec d c) as [->|Hne]; [|reflexivity].
    cbn [andb]. apply IH; [exact Hq|]. apply H. intros ->.
    rewrite Ascii.eqb_refl in Hd. discriminate.
Qed.

Lemma replaceAll_keeps_out (pt r qt : string) :
  startsWith r "{" = true -> brace_free qt = true ->
  seam_free r (String "{" qt) ->
  forall n s,
    (String.length s <= n)%nat ->
    String "{" qt = String "{" pt \/ includes s (String "{" qt) = false ->
    includes (replaceAll (String "{" pt) r s) (String "{" qt) = false.
Proof.
  intros Hr Hq Hseam. induction n as [|n IH]; intros s Hlen Hs.
  - destruct s; [reflexivity|simpl in Hlen; lia].
  - destruct s as [|c s]; [reflexivity|]. simpl in Hlen.
    destruct (startsWith (String c s) (String "{" pt)) eqn:E.
    + rewrite replaceAll_match by (exact E || discriminate).
      rewrite Hseam. apply IH.
      * pose proof (length_drop (String.length (String "{" pt)) (String c s)).
        simpl in H |- *. simpl in H. lia.
      * destruct Hs as [Hs|Hs]; [left; exact Hs|right].
        apply includes_drop, Hs.
    + rewrite replaceAll_no_match by exact E. cbn [includes].
      apply orb_false_iff. split.
      * cbn [startsWith].
        rewrite (startsWith_same_to_brace qt Hq s
                   (replaceAll (String "{" pt) r s)
                   (same_to_brace_replaceAll pt r s Hr)).
        destruct Hs as [Hs|Hs].
        -- injection Hs as ->. exact E.
        -- cbn [includes] in Hs. apply orb_false_iff in Hs. tauto.
      * apply IH; [lia|]. destruct Hs as [Hs|Hs]; [left; exact Hs|right].
        cbn [includes] in Hs. apply orb_false_iff in Hs. tauto.
Qed.

(** The same for the deprecated placeholders. *)
Lemma migration_keeps_out (p r q r' s : string) :
  In (p, r) migrations -> In (q, r') migrations ->
  q = p \/ includes s q = false ->
  includes (replaceAll p r s) q = false.
Proof.
  intros Hp Hq Hs.
  assert (Hp' : exists pt, p = String "{" pt /\ startsWith r "{" = true).
  { simpl in Hp.
    destruct Hp as [H|[H|[H|[H|[]]]]]; injection H as <- <-; eauto. }
  assert (Hq' : exists qt, q = String "{" qt /\ brace_free qt = true).
  { simpl in Hq.
    destruct Hq as [H|[H|[H|[H|[]]]]]; injection H as <- <-; eauto. }
  assert (Hseam : seam_free r q).
  { simpl in Hp, Hq.
    destruct Hp as [H|[H|[H|[H|[]]]]]; injection H as <- <-;
      destruct Hq as [H|[H|[H|[H|[]]]]]; injection H as <- <-;
      intros o; reflexivity. }
  destruct Hp' as (pt & -> & Hr), Hq' as (qt & -> & Hqt).
  apply (replaceAll_keeps_out pt r qt Hr Hqt Hseam (String.length s) s);
    [lia|exact Hs].
Qed.

Lemma migrate_migrated (t : string) : migrated (migrateTooltipTemplate t).
Proof.
  intros q r' Hq. unfold migrateTooltipTemplate.
  assert (H1 : In ("{data.source}", "{source}") migrations) by (simpl; auto).
  assert (H2 : In ("{data.target}", "{target}") migrations) by (simpl; auto).
  assert (H3 : In ("{data.value}", "{value}") migrations) by (simpl; auto 6).
  assert (H4 : In ("{data.id}", "{id}") migrations) by (simpl; auto 6).
  pose proof Hq as Hq0. simpl in Hq0.
  destruct Hq0 as [H|[H|[H|[H|[]]]]]; injection H as <- <-.
  - apply (migration_keeps_out _ _ _ _ _ H4 Hq). right.
    apply (migration_keeps_out _ _ _ _ _ H3 Hq). right.
    apply (migration_keeps_out _ _ _ _ _ H2 Hq). right.
    apply (migration_keeps_out _ _ _ _ _ H1 Hq). left. reflexivity.
  - apply (migration_keeps_out _ _ _ _ _ H4 Hq). right.
    apply (migration_keeps_out _ _ _ _ _ H3 Hq). right.
    apply (migration_keeps_out _ _ _ _ _ H2 Hq). left. reflexivity.
  - apply (migration_keeps_out _ _ _ _ _ H4 Hq). right.
    apply (migration_keeps_out _ _ _ _ _ H3 Hq). left. reflexivity.
  - apply (migration_keeps_out _ _ _ _ _ H4 Hq). left. reflexivity.
Qed.

Lemma migrate_of_migrated (t : string) :
  migrated t -> migrateTooltipTemplate t = t.
Proof.
  intros H. unfold migrateTooltipTemplate.
  rewrite (replaceAll_absent "{data.source}") by (apply (H _ "{source}"); simpl; auto).
  rewrite (replaceAll_absent "{data.target}") by (apply (H _ "{target}"); simpl; auto).
  rewrite (replaceAll_absent "{data.value}") by (apply (H _ "{value}"); simpl; auto 6).
  rewrite (replaceAll_absent "{data.id}") by (apply (H _ "{id}"); simpl; auto 6).
  reflexivity.
Qed.

(** X12. Migration removes every deprecated placeholder: none of
    [{data.source}], [{data.target}], [{data.value}], [{data.id}] occurs in
    the result, and migrating a second time changes nothing. *)
Theorem X12_migrateTooltipTemplate_idempotent (template : string) :
  includes (migrateTooltipTemplate template) "{data.source}" = false /\
  includes (migrateTooltipTemplate template) "{data.target}" = false /\
  includes (migrateTooltipTemplate template) "{data.value}" = false /\
  includes (migrateTooltipTemplate template) "{data.id}" = false /\
  migrateTooltipTemplate (migrateTooltipTemplate template)
    = migrateTooltipTemplate template.
Proof.
  pose proof (migrate_migrated template) as H.
  repeat split.
  - apply (H _ "{source}"). simpl. auto.
  - apply (H _ "{target}"). simpl. auto.
  - apply (H _ "{value}"). simpl. auto 6.
  - apply (H _ "{id}"). simpl. auto 6.
  - apply migrate_of_migrated, H.
Qed.

Lemma migrate_without_data_prefix (t : string) :
  includes t "{data." = false -> migrateTooltipTemplate t = t.
Proof.
  intros H. apply migrate_of_migrated. intros p r Hp. simpl in Hp.
  destruct Hp as [E|[E|[E|[E|[]]]]]; injection E as <- <-.
  - exact (includes_prefix t "{data." "source}" H).
  - exact (includes_prefix t "{data." "target}" H).
  - exact (includes_prefix t "{data." "value}" H).
  - exact (includes_prefix t "{data." "id}" H).
Qed.

(** *** The validator of templates *)

Lemma list_includes_In (xs : list string) (x : string) :
  list_includes xs x = true <-> In x xs.
Proof.
  unfold list_includes. rewrite existsb_exists. split.
  - intros (y & Hy & E). apply String.eqb_eq in E. subst. exact Hy.
  - intros H. exists x. split; [exact H|apply String.eqb_refl].
Qed.

Lemma append_close_inj (x v : string) :
  (x ++ "}" = v ++ "}")%string -> x = v.
Proof.
  revert v. induction x as [|a x IH]; intros [|b v] H; simpl in H.
  - reflexivity.
  - injection H as _ H. destruct v; discriminate.
  - injection H as _ H. destruct x; discriminate.
  - injection H as -> H. f_equal. apply IH, H.
Qed.

(** A name that is supported with the [data.] prefix is supported without
    it: the second test of the loop never saves a variable. *)
Lemma data_prefix_never_saves (varName : string) :
  In ("{data." ++ varName ++ "}")%string supportedVariables ->
  In ("{" ++ varName ++ "}")%string supportedVariables.
Proof.
  unfold supportedVariables. cbn [In append].
  intros [H|[H|[H|[H|[H|[H|[H|[H|[H|[]]]]]]]]]]; try discriminate H.
  - injection H as H. rewrite <- (append_close_inj "source" varName H).
    simpl. auto.
  - injection H as H. rewrite <- (append_close_inj "target" varName H).
    simpl. auto.
  - injection H as H. rewrite <- (append_close_inj "value" varName H).
    simpl. auto.
  - injection H as H. rewrite <- (append_close_inj "id" varName H).
    simpl. auto.
Qed.

Lemma check_variable_spec (warnings : list string) (varName : string) :
  check_variable warnings varName =
  if unsupported varName
  then warnings ++ [msg_unknown_variable ("{" ++ varName ++ "}")]
  else warnings.
Proof.
  unfold check_variable, unsupported.
  destruct (list_includes supportedVariables ("{" ++ varName ++ "}")) eqn:E;
    [reflexivity|]. cbn [negb].
  destruct (list_includes supportedVariables ("{data." ++ varName ++ "}"))
    eqn:E'; [|reflexivity].
  apply list_includes_In, data_prefix_never_saves, list_includes_In in E'.
  congruence.
Qed.

Lemma check_variables_fold (found : list string) (warnings : list string) :
  fold_left check_variable found warnings =
  warnings ++
  map (fun v => msg_unknown_variable ("{" ++ v ++ "}"))
      (filter unsupported found).
Proof.
  revert warnings. induction found as [|v found IH]; intros ws; simpl.
  - rewrite app_nil_r. reflexivity.
  - rewrite IH, check_variable_spec. destruct (unsupported v); simpl.
    + rewrite <- app_assoc. reflexivity.
    + reflexivity.
Qed.

Lemma unknown_message_marked (variable : string) :
  includes (msg_unknown_variable variable) "Unknown variable" = true.
Proof. reflexivity. Qed.

Lemma unknown_count (vs : list string) :
  filter (fun w => includes w "Unknown variable")
         (map (fun v => msg_unknown_variable ("{" ++ v ++ "}")) vs)
  = map (fun v => msg_unknown_variable ("{" ++ v ++ "}")) vs.
Proof.
  induction vs as [|v vs IH]; [reflexivity|]. cbn [map filter].
  rewrite unknown_message_marked, IH. reflexivity.
Qed.

(** Every variable the loop finds is not empty and stands between braces in
    the template. *)
Lemma variables_from_drop (k : nat) (s : string) :
  variables_from k s = variables_from 0 (drop k s).
Proof.
  revert s. induction k as [|k IH]; intros s; [reflexivity|].
  destruct s as [|c s]; [reflexivity|]. cbn [variables_from drop]. apply IH.
Qed.

Lemma until_close_split (s name : string) :
  until_close s = Some name -> startsWith s (name ++ "}") = true.
Proof.
  revert name. induction s as [|c s IH]; intros name H; [discriminate|].
  cbn [until_close] in H. destruct (Ascii.eqb_spec c "}") as [->|Hne].
  - injection H as <-. reflexivity.
  - destruct (until_close s) as [n|]; [|discriminate]. injection H as <-.
    cbn [append startsWith]. rewrite Ascii.eqb_refl. apply IH. reflexivity.
Qed.

Lemma includes_of_drop (k : nat) (s q : string) :
  includes (drop k s) q = true -> includes s q = true.
Proof.
  intros H. destruct (includes s q) eqn:E; [reflexivity|].
  rewrite (includes_drop k s q E) in H. discriminate.
Qed.

Lemma foundVariables_occur (n : nat) :
  forall s v,
    (String.length s <= n)%nat -> In v (foundVariables s) ->
    v <> EmptyString /\ includes s ("{" ++ v ++ "}") = true.
Proof.
  unfold foundVariables.
  induction n as [|n IH]; intros s v Hlen Hin.
  - destruct s; [contradiction|simpl in Hlen; lia].
  - destruct s as [|c s]; [contradiction|]. simpl in Hlen.
    assert (Hrest : In v (variables_from 0 s) ->
                    v <> EmptyString /\
                    includes (String c s) ("{" ++ v ++ "}") = true).
    { intros H. destruct (IH s v) as [H1 H2]; [lia|exact H|].
      split; [exact H1|]. cbn [includes]. rewrite H2. apply orb_true_r. }
    cbn [variables_from] in Hin.
    destruct (Ascii.eqb_spec c "{") as [->|Hne]; [|auto].
    destruct (until_close s) as [[|a name]|] eqn:Eu; auto.
    destruct Hin as [<-|Hin].
    + split; [discriminate|]. apply until_close_split in Eu.
      cbn [includes]. apply orb_true_iff. left.
      change (startsWith (String "{" s) (String "{" (String a name ++ "}"))
              = true).
      cbn [startsWith]. rewrite Ascii.eqb_refl. exact Eu.
    + rewrite variables_from_drop in Hin.
      destruct (IH (drop (S (String.length (String a name))) s) v)
        as [H1 H2]; [|exact Hin|].
      * pose proof (length_drop (S (String.length (String a name))) s). lia.
      * split; [exact H1|]. cbn [includes].
        rewrite (includes_of_drop _ _ _ H2). apply orb_true_r.
Qed.

(** X13. What the template validator reports.  The warnings are one
    "Unknown variable" message for every placeholder found that is not one
    of the nine supported spellings, in order, followed by the deprecation
    message when the template contains ["{data."].  [isValid] holds exactly
    when every placeholder found is supported, whatever the deprecation
    message; and every placeholder found is a non-empty name that stands
    between braces in the template. *)
Theorem X13_validateTooltipTemplate_report (template : string) :
  let report := validateTooltipTemplate template in
  template_warnings report =
    map (fun v => msg_unknown_variable ("{" ++ v ++ "}"))
        (filter unsupported (foundVariables template))
    ++ (if includes template "{data." then [msg_deprecated] else []) /\
  (template_isValid report = true <->
   forall v, In v (foundVariables template) ->
             In ("{" ++ v ++ "}")%string supportedVariables) /\
  (forall v, In v (foundVariables template) ->
             v <> EmptyString /\
             includes template ("{" ++ v ++ "}") = true).
Proof.
  intros report. subst report. unfold validateTooltipTemplate.
  cbn [template_warnings template_isValid].
  rewrite check_variables_fold. cbn [app].
  set (unknown := filter unsupported (foundVariables template)).
  assert (Hcount :
    filter (fun w => includes w "Unknown variable")
      (if includes template "{data."
       then map (fun v => msg_unknown_variable ("{" ++ v ++ "}")) unknown
            ++ [msg_deprecated]
       else map (fun v => msg_unknown_variable ("{" ++ v ++ "}")) unknown)
    = map (fun v => msg_unknown_variable ("{" ++ v ++ "}")) unknown).
  { destruct (includes template "{data.").
    - rewrite filter_app, unknown_count. cbn. apply app_nil_r.
    - apply unknown_count. }
  split; [|split].
  - destruct (includes template "{data."); [reflexivity|].
    rewrite app_nil_r. reflexivity.
  - rewrite Hcount, length_map. subst unknown.
    destruct (filter unsupported (foundVariables template)) as [|u us] eqn:E.
    + split; [|reflexivity]. intros _ v Hv.
      apply list_includes_In.
      destruct (list_includes supportedVariables ("{" ++ v ++ "}")) eqn:Ev;
        [reflexivity|]. exfalso.
      assert (Hu : In v (filter unsupported (foundVariables template))).
      { apply filter_In. split; [exact Hv|]. unfold unsupported.
        rewrite Ev. reflexivity. }
      rewrite E in Hu. exact Hu.
    + split; [discriminate|]. intros H. exfalso.
      assert (Hu : In u (filter unsupported (foundVariables template)))
        by (rewrite E; now left).
      apply filter_In in Hu. destruct Hu as [Hu1 Hu2].
      apply H, list_includes_In in Hu1. unfold unsupported in Hu2.
      rewrite Hu1 in Hu2. discriminate.
  - intros v Hv.
    exact (foundVariables_occur (String.length template) template v
             (Nat.le_refl _) Hv).
Qed.

(** X14. Unless the validator warns about the deprecated syntax, migration
    leaves the template as it is. *)
Theorem X14_migration_needs_deprecation_warning (template : string) :
  In msg_deprecated (template_warnings (validateTooltipTemplate template)) \/
  migrateTooltipTemplate template = template.
Proof.
  destruct (includes template "{data.") eqn:E.
  - left. unfold validateTooltipTemplate. cbn [template_warnings].
    rewrite E. apply in_or_app. right. now left.
  - right. apply migrate_without_data_prefix, E.
Qed.

End Templates.

(* ------------------------------------------------------------------ *)
(** ** Node colours *)

Section NodeColourFacts.
Context {rt : JSRuntime}.

Lemma colors_NoDup : NoDup colors.
Proof.
  assert (E : nodup string_dec colors = colors) by (vm_compute; reflexivity).
  rewrite <- E. apply NoDup_nodup.
Qed.

Lemma NoDup_firstn_of {A : Type} (n : nat) (l : list A) :
  NoDup l -> NoDup (firstn n l).
Proof.
  intros H. rewrite <- (firstn_skipn n l) in H.
  apply NoDup_app_remove_r in H. exact H.
Qed.

Lemma nth_error_seq_firstn {A : Type} (l : list A) (n : nat) :
  (n <= List.length l)%nat ->
  map (nth_error l) (seq 0 n) = map (@Some A) (firstn n l).
Proof.
  revert n. induction l as [|x l IH]; intros n Hn.
  - simpl in Hn. assert (n = 0)%nat as -> by lia. reflexivity.
  - destruct n as [|n]; [reflexivity|]. simpl in Hn.
    cbn [seq map firstn nth_error]. f_equal.
    rewrite <- seq_shift, map_map. cbn [nth_error]. apply IH. lia.
Qed.

(** X15. In a chart with at most 15 nodes every node gets a colour of the
    palette, in palette order, and no two nodes get the same colour. *)
Theorem X15_small_charts_get_distinct_palette_colours
    (nodes : list SankeyNode) :
  (List.length nodes <= 15)%nat ->
  node_colors nodes = map Some (firstn (List.length nodes) colors) /\
  NoDup (node_colors nodes).
Proof.
  intros Hn.
  assert (E : node_colors nodes
              = map Some (firstn (List.length nodes) colors)).
  { unfold node_colors, generateNodeColor.
    change (List.length colors) with 15%nat.
    destruct (Nat.leb_spec (List.length nodes) 15) as [_|Hgt]; [|lia].
    apply nth_error_seq_firstn. exact Hn. }
  split; [exact E|]. rewrite E.
  apply NoDup_map_of; [congruence|]. apply NoDup_firstn_of, colors_NoDup.
Qed.

End NodeColourFacts.

(* ------------------------------------------------------------------ *)
(** ** Further worked examples *)

Section MoreExamples.
#[local] Existing Instance decimal_runtime.

Lemma X3_witness_scenario_A :
  In (example_link "A" "B" 15) (aggregateLinks scenario_A_links) /\
  exists first rest,
    filter (fun l => link_key l =? link_key (example_link "A" "B" 15))
           scenario_A_links = first :: rest /\
    link_source (example_link "A" "B" 15) = link_source first /\
    link_target (example_link "A" "B" 15) = link_target first /\
    link_id (example_link "A" "B" 15) = link_id first /\
    link_value (example_link "A" "B" 15)
      = fold_left js_add (map link_value rest) (link_value first).
Proof.
  assert (H : In (example_link "A" "B" 15) (aggregateLinks scenario_A_links))
    by (left; reflexivity).
  split; [exact H|].
  exact (X3_aggregateLinks_first_edge_wins scenario_A_links
           (example_link "A" "B" 15) H).
Defined.

Lemma X4_witness_scenario_A :
  NoDup (map link_key scenario_A_aggregated) /\
  aggregateLinks scenario_A_aggregated = scenario_A_aggregated.
Proof.
  assert (H : NoDup (map link_key scenario_A_aggregated)).
  { repeat constructor; simpl; intuition discriminate. }
  split; [exact H|].
  exact (X4_aggregateLinks_distinct_keys scenario_A_aggregated H).
Defined.

Lemma X10_witness_scenario_A :
  map node_frame scenario_A_stale_nodes = map node_frame scenario_A_nodes /\
  calculateNodeDepths scenario_A_stale_nodes scenario_A_aggregated
    = calculateNodeDepths scenario_A_nodes scenario_A_aggregated.
Proof.
  assert (H : map node_frame scenario_A_stale_nodes
              = map node_frame scenario_A_nodes) by reflexivity.
  split; [exact H|].
  exact (X10_input_depths_are_ignored scenario_A_aggregated
           scenario_A_stale_nodes scenario_A_nodes H).
Defined.

Lemma X11_witness_scenario_A :
  NoDup (map node_name scenario_A_nodes) /\
  exists result,
    calculateNodeDepths scenario_A_nodes scenario_A_aggregated = Some result /\
    calculateNodeDepths result scenario_A_aggregated = Some result.
Proof.
  assert (H : NoDup (map node_name scenario_A_nodes)).
  { repeat constructor; simpl; intuition discriminate. }
  split; [exact H|].
  exact (X11_calculateNodeDepths_idempotent scenario_A_aggregated
           scenario_A_nodes H).
Defined.

Lemma X15_witness_scenario_A :
  (List.length scenario_A_nodes <= 15)%nat /\
  node_colors scenario_A_nodes
    = map Some (firstn (List.length scenario_A_nodes) colors) /\
  NoDup (node_colors scenario_A_nodes).
Proof.
  assert (H : (List.length scenario_A_nodes <= 15)%nat) by (simpl; lia).
  split; [exact H|].
  exact (X15_small_charts_get_distinct_palette_colours scenario_A_nodes H).
Defined.

End MoreExamples.
